(** * OEDict: the Bosworth-Toller transcript parser ([parse_scanned_bt.py])

    A shallow embedding of the entry segmenter [read_entries], the headword
    extractor [extract_headwords] (with [unaccented_letters] and
    [remove_trailing_part_refs]) and the aggregator [collect_entries],
    followed by the properties proved about them.

    Python values are modelled as follows.
    - [str] is a list of Unicode code points ([pystr := list N]).
    - [int] (the line counter) is [N].
    - [set] is stdpp's [gset], [dict] is stdpp's [gmap].
    - A raised exception is the [Err] case of [result]; the exception value
      keeps the payload the source attaches to it. *)

From Stdlib Require Import NArith String Ascii Lia.
From stdpp Require Import base option list gmap.

Local Open Scope N_scope.

(** ** Python strings *)

Definition pystr : Type := list N.

(** [py "..."] reads an ASCII literal as a Python string. *)
Definition py (s : string) : pystr := map N_of_ascii (list_ascii_of_string s).

(** The line feed, ['\n']. *)
Definition LF : N := 10.
Definition nl : pystr := [LF].

(** [str.isspace] on one code point: the white space of CPython's
    [_PyUnicode_IsWhitespace]. *)
Definition isspace (c : N) : bool :=
  (9 <=? c) && (c <=? 13) || (28 <=? c) && (c <=? 32)
  || (c =? 133) || (c =? 160) || (c =? 5760)
  || (8192 <=? c) && (c <=? 8202)
  || (c =? 8232) || (c =? 8233) || (c =? 8239) || (c =? 8287) || (c =? 12288).

Fixpoint lstrip (s : pystr) : pystr :=
  match s with
  | c :: s' => if isspace c then lstrip s' else s
  | [] => []
  end.

Definition rstrip (s : pystr) : pystr := reverse (lstrip (reverse s)).

(** [s.strip()] *)
Definition strip (s : pystr) : pystr := rstrip (lstrip s).

(** [s.startswith(pfx)] *)
Fixpoint startswith (pfx s : pystr) : bool :=
  match pfx, s with
  | [], _ => true
  | p :: pfx', c :: s' => (p =? c) && startswith pfx' s'
  | _ :: _, [] => false
  end.

(** [s.endswith(sfx)] *)
Definition endswith (sfx s : pystr) : bool :=
  startswith (reverse sfx) (reverse s).

(** The truth value of a string: [bool(s)], false exactly on ['']. *)
Definition truthy (s : pystr) : bool :=
  match s with [] => false | _ :: _ => true end.

(** [s.split(sep)] for a one-character separator. *)
Fixpoint split_on (sep : N) (s : pystr) : list pystr :=
  match s with
  | [] => [[]]
  | c :: s' =>
      if c =? sep then [] :: split_on sep s'
      else match split_on sep s' with
           | w :: ws => (c :: w) :: ws
           | [] => [[c]]
           end
  end.

(** ** Exceptions *)

(** [class S(Enum)]: the state of the line-reading state machine. *)
Module S.
Inductive t : Set :=
| INTRO       (* in the prefix, before entries are read *)
| ENTRY       (* in the middle of an entry *)
| BREAK       (* after blanks, which separate entries except at page breaks *)
| PAGE_BREAK. (* after page break, which may or may not separate entries *)

Definition eqb (a b : t) : bool :=
  match a, b with
  | INTRO, INTRO | ENTRY, ENTRY | BREAK, BREAK | PAGE_BREAK, PAGE_BREAK => true
  | _, _ => false
  end.
End S.

(** The second operand of a failed [assert cond, msg]. *)
Inductive assert_msg : Type :=
| NoMessage                                   (* [assert cond] *)
| StateOrdinal (state : S.t) (n : N)          (* [(state, n)] *)
| PartialOrdinal (partial : pystr) (n : N)    (* [(partial, n)] *)
| EntryText (e : pystr).                      (* [e] *)

Inductive exn : Type :=
| AssertionError (msg : assert_msg)
| BadNormalization (term : pystr) (headwords : list pystr) (e : pystr)
    (* [Exception('bad normalization, term = %r headwords = %r e = %r')] *)
| AttributeError.   (* [None.split]: the group took no part in the match *)

Inductive result (A : Type) : Type :=
| Ok (a : A)
| Err (x : exn).
Arguments Ok {A} a.
Arguments Err {A} x.

(** Sequencing: an exception ends the computation. *)
#[global] Instance result_bind : MBind result := λ A B k r,
  match r with
  | Ok a => k a
  | Err x => Err x
  end.
#[global] Instance result_ret : MRet result := @Ok.

(** [assert cond, msg] *)
Definition assert (cond : bool) (msg : assert_msg) : result unit :=
  if cond then Ok tt else Err (AssertionError msg).


(** [for x in xs: acc = body(acc, x)], stopping at the first exception. *)
Fixpoint for_each {A X : Type} (body : A → X → result A) (acc : A) (xs : list X)
  : result A :=
  match xs with
  | [] => Ok acc
  | x :: xs' => acc' ← body acc x; for_each body acc' xs'
  end.

(** ** The entry segmenter *)

(** Line numbers that do not start an entry, even though they may begin with
    a bolded phrase. *)
Definition NOT_AN_ENTRY : gset N :=
  list_to_set
    [326; 330; 332; 692; 1845; 6016; 17859; 24005; 49675; 97466; 110519;
     118045; 119186; 126386].

(** Line numbers that do start an entry, even though whether they do or not
    is ambiguous. *)
Definition ALWAYS_AN_ENTRY : gset N :=
  list_to_set
    [12470; 17858; 60157; 60555; 60820; 75155; 75330; 77825; 83439; 84266;
     94282; 97998; 102650; 102655; 102810; 102822; 102895; 103897; 113712;
     113834; 119068; 123676].

(** The local variables of [read_entries] that live across loop iterations. *)
Record locals : Type := Locals {
  state : S.t;
  partial : pystr;          (* in-progress entry HTML *)
  entries : list pystr;
  n : N
}.

Definition bold_open : pystr := py "<B>".

(** [line.startswith('<HEADER>') or line.startswith('<PAGE NUM')
     or line.startswith('<letterheader')] *)
Definition is_page_header (line : pystr) : bool :=
  startswith (py "<HEADER>") line || startswith (py "<PAGE NUM") line
  || startswith (py "<letterheader") line.

(** One iteration of the [for line in in_file] loop. The branches follow the
    source in order; each [continue] is the end of its branch. *)
Definition read_line (v : locals) (raw : pystr) : result locals :=
  let n := N.succ v.(n) in
  let line := strip raw in
  let state := v.(state) in
  let partial := v.(partial) in
  let entries := v.(entries) in
  if startswith bold_open line && negb (bool_decide (n ∈ NOT_AN_ENTRY)) then
    assert (S.eqb state S.BREAK || S.eqb state S.PAGE_BREAK || S.eqb state S.INTRO
             || (bool_decide (n ∈ ALWAYS_AN_ENTRY) && S.eqb state S.ENTRY))
      (StateOrdinal state n);;
    assert (if S.eqb state S.INTRO then negb (truthy partial) else true)
      (PartialOrdinal partial n);;
    let entries := if truthy partial then entries ++ [partial] else entries in
    Ok (Locals S.ENTRY line entries n)
  else if S.eqb state S.INTRO then
    Ok (Locals state partial entries n)
  else if negb (truthy line) && S.eqb state S.ENTRY then
    Ok (Locals S.BREAK partial entries n)
  else if is_page_header line then
    assert (S.eqb state S.BREAK || S.eqb state S.PAGE_BREAK)
      NoMessage;;
    Ok (Locals S.PAGE_BREAK partial entries n)
  else if negb (truthy line) && S.eqb state S.PAGE_BREAK then
    Ok (Locals state partial entries n)
  else
    assert (truthy partial)
      NoMessage;;
    assert (S.eqb state S.ENTRY || S.eqb state S.PAGE_BREAK || S.eqb state S.BREAK)
      NoMessage;;
    assert (bool_decide (n ∈ NOT_AN_ENTRY) || negb (startswith bold_open line))
      NoMessage;;
    Ok (Locals S.ENTRY (partial ++ line ++ nl) entries n).

Definition initial : locals := Locals S.INTRO [] [] 0.

(** The statements after the loop: a pending entry is added to [entries]. *)
Definition finish (v : locals) : list pystr :=
  if truthy v.(partial) then v.(entries) ++ [v.(partial)] else v.(entries).

Definition read_entries (in_file : list pystr) : result (list pystr) :=
  v ← for_each read_line initial in_file; Ok (finish v).

(** ** Regular expressions: the fragment of [re] the program uses *)

Inductive regex : Type :=
| Eps                       (* the empty pattern *)
| Chr (ok : N → bool)       (* one character of a class, or a literal *)
| Cat (a b : regex)         (* [ab] *)
| Alt (a b : regex)         (* [a|b] *)
| Plus (a : regex)          (* [a+], greedy *)
| Group (a : regex)         (* [(a)], the group the caller reads *)
| Bol                       (* [^] *)
| Eol.                      (* [$] *)

(** A literal string. *)
Fixpoint lit (s : pystr) : regex :=
  match s with
  | [] => Eps
  | c :: s' => Cat (Chr (N.eqb c)) (lit s')
  end.

(** A character class given by its members, [[...]]. *)
Definition member (cs : pystr) (c : N) : bool := bool_decide (c ∈ cs).
Definition one_of (cs : pystr) : regex := Chr (member cs).

(** A match in progress: the text of the group, when it took part, and the
    input that is left. *)
Definition mstate : Type := option pystr * pystr.

Definition later_group (c1 c2 : option pystr) : option pystr :=
  match c2 with Some _ => c2 | None => c1 end.

(** The iterations of [a+] from [s], where [step] lists the matches of [a]:
    after each match of [a], first the longer matches that repeat it, then
    the match itself. An iteration that consumes nothing is not repeated;
    [fuel] bounds the number of iterations and exceeds the length of [s]. *)
Fixpoint plus_iter (step : pystr → list mstate) (fuel : nat) (s : pystr)
  : list mstate :=
  match fuel with
  | O => []
  | Datatypes.S fuel' =>
      '(c1, s1) ← step s;
      (if (length s1 <? length s)%nat
       then '(c2, s2) ← plus_iter step fuel' s1; [(later_group c1 c2, s2)]
       else [])
      ++ [(c1, s1)]
  end.

(** [ends r len s]: every way [r] matches a prefix of [s], in the order the
    backtracking matcher tries them; [len] is the length of the whole
    subject, which tells [^] where the subject starts. *)
Fixpoint ends (r : regex) (len : nat) (s : pystr) : list mstate :=
  match r with
  | Eps => [(None, s)]
  | Chr ok =>
      match s with
      | c :: s' => if ok c then [(None, s')] else []
      | [] => []
      end
  | Cat a b =>
      '(c1, s1) ← ends a len s;
      '(c2, s2) ← ends b len s1;
      [(later_group c1 c2, s2)]
  | Alt a b => ends a len s ++ ends b len s
  | Plus a => plus_iter (ends a len) (Datatypes.S (length s)) s
  | Group a =>
      '(_, s1) ← ends a len s;
      [(Some (take (length s - length s1)%nat s), s1)]
  | Bol => if (length s =? len)%nat then [(None, s)] else []
  | Eol =>
      match s with
      | [] => [(None, s)]
      | [c] => if c =? LF then [(None, s)] else []
      | _ => []
      end
  end.

(** [re.match(r, s)]: the first match at the start of [s], if any. *)
Definition re_match (r : regex) (s : pystr) : option mstate :=
  head (ends r (length s) s).

(** [m.group(1)] *)
Definition group1 (m : mstate) : option pystr := fst m.

(** [re.sub(r, repl, s)] for a literal [repl], scanning the suffix [s] of a
    subject of length [len] from left to right. The text of a match is
    replaced and the scan goes on where the match ended; after an empty
    match it looks at the same place again with [must_advance] set, which
    admits non-empty matches only. Where nothing matches, one character is
    copied. [fuel] bounds the number of steps. *)
Fixpoint sub_from (fuel : nat) (r : regex) (repl : pystr) (len : nat)
    (must_advance : bool) (s : pystr) : pystr :=
  match fuel with
  | O => s
  | Datatypes.S fuel' =>
      let tries :=
        if must_advance
        then List.filter (λ m : mstate, (length (snd m) <? length s)%nat)
               (ends r len s)
        else ends r len s in
      match head tries with
      | Some (_, rest) =>
          repl ++ sub_from fuel' r repl len (length rest =? length s)%nat rest
      | None =>
          match s with
          | [] => []
          | c :: s' => c :: sub_from fuel' r repl len false s'
          end
      end
  end.

Definition re_sub (r : regex) (repl s : pystr) : pystr :=
  sub_from (2 * length s + 2) r repl (length s) false s.

(** ** The Unicode tables of the Python runtime

    [str.lower], [unicodedata.normalize('NFKD', _)] and the class [\w] are
    tables of the interpreter, not code of the program. They are taken as
    they are, with what they do on ASCII text as their only known facts. *)

Definition isascii (s : pystr) : bool := forallb (λ c, c <? 128) s.

Definition ascii_lower (c : N) : N :=
  if (65 <=? c) && (c <=? 90) then c + 32 else c.

Definition ascii_word (c : N) : bool :=
  (48 <=? c) && (c <=? 57) || (65 <=? c) && (c <=? 90)
  || (97 <=? c) && (c <=? 122) || (c =? 95).

Class Unicode : Type := {
  lower : pystr → pystr;
  nfkd : pystr → pystr;
  isword : N → bool;
  lower_ascii : ∀ s, isascii s = true → lower s = map ascii_lower s;
  nfkd_ascii : ∀ s, isascii s = true → nfkd s = s;
  isword_ascii : ∀ c, c < 128 → isword c = ascii_word c
}.

(** ** The headword extractor *)

(** Some entries run afoul of the normalization rules because they look too
    much like subparts of other headwords. This is a map from entry prefix
    to the correct headword, in the order of the dict literal. *)
Definition HEADWORD_SPECIAL_CASES : list (pystr * pystr) :=
  [ (py "<B>a;</B>", py "a");
    (py "<B>" ++ [193] ++ py ",</B>", py "a");
    (py "<B>" ++ [225] ++ py ",</B> <I>indecl", py "a");
    (py "<B>B</B> THE sound of b is produced", py "b");
    (py "<B>D</B> is sometimes changed", py "d");
    (py "<B>A.</B> Anglo-Saxon words, containing the short or un", py "e");
    (py "<B>F</B> At the end of syllable", py "f");
    (py "<B>I</B> THE Runic character", py "i");
    (py "<B>Ii,</B> Hii, <I>Iona</I>", py "hii");
    (py "<B>" ++ [211] ++ py "</B> <I>ever.</I>", py "a");
    (py "<B>" ++ [299] ++ py ".</B> es; <I>m. A letter</I>", py "i");
    (py "<B>" ++ [225] ++ py "</B> = on :-- " ++ [193] ++ py " felda", py "a");
    (py "<B>" ++ [225] ++ py "</B> <I>ever.</I> <B>B.", py "a") ].

Definition SPACE : N := 32.
Definition HYPHEN : N := 45.
Definition COMMA : N := 44.

(** The class [[0-9]]. *)
Definition is_digit (c : N) : bool := (48 <=? c) && (c <=? 57).

(** The pattern [((^| )([ivx]+|[abcdefoα]|[0-9]+))+$], from the inside:
    [[ivx]+|[abcdefoα]|[0-9]+], then [(^| )(...)], then the whole. *)
Definition part_ref : regex :=
  Alt (Plus (one_of (py "ivx")))
      (Alt (one_of (py "abcdefo" ++ [945])) (Plus (Chr is_digit))).

Definition spaced_part_ref : regex :=
  Cat (Alt Bol (Chr (N.eqb SPACE))) part_ref.

Definition trailing_part_refs : regex := Cat (Plus spaced_part_ref) Eol.

(** The pattern [^<B>([^<]+)</B>]: the bolded string at the beginning. *)
Definition bolded_start : regex :=
  Cat Bol (Cat (lit (py "<B>"))
    (Cat (Group (Plus (Chr (λ c, negb (c =? 60))))) (lit (py "</B>")))).

Section Headwords.
Context {U : Unicode}.

(** The pattern [[^\w -]]. *)
Definition not_letter : regex :=
  Chr (λ c, negb (isword c || (c =? SPACE) || (c =? HYPHEN))).

(** Return the letters of [s] with accents removed. *)
Definition unaccented_letters (s : pystr) : pystr :=
  let s := nfkd s in
  let s := re_sub not_letter [] s in
  s.

(** Remove non-headword parts of lowercased Toller terms. *)
Definition remove_trailing_part_refs (s : pystr) : pystr :=
  re_sub trailing_part_refs [] (strip s).

(** [enumerate(l)] *)
Definition enumerate {A : Type} (l : list A) : list (nat * A) := imap pair l.

(** Return the bolded headwords from the beginning of an entry. *)
Definition extract_headwords (e : pystr) : result (list pystr) :=
  match List.find (λ kv, startswith (fst kv) e) HEADWORD_SPECIAL_CASES with
  | Some (pfx, hwd) => Ok [hwd]
  | None =>
      match re_match bolded_start e with
      | None => Err (AssertionError (EntryText e))
      | Some m =>
          match group1 m with
          | None => Err AttributeError
          | Some g =>
              let words :=
                map (λ s, unaccented_letters (lower s)) (split_on COMMA g) in
              let short_words := map remove_trailing_part_refs words in
              let short_words := List.filter truthy short_words in
              let full_words :=
                map snd
                  (List.filter
                     (λ iw, negb (endswith [HYPHEN] (snd iw))
                            || (fst iw + 1 =? length short_words)%nat)
                     (enumerate short_words)) in
              let full_words :=
                map snd
                  (List.filter
                     (λ iw, negb (startswith [HYPHEN] (snd iw))
                            || (fst iw =? 0)%nat)
                     (enumerate full_words)) in
              Ok full_words
          end
      end
  end.
End Headwords.

(** ** The aggregator *)

(** [Entry = NamedTuple('Entry', [('headwords', Set[str]), ('defns', List[str])])] *)
Record Entry : Type := mkEntry {
  headwords : gset pystr;
  defns : list pystr
}.

Section Aggregator.
Context {U : Unicode}.

(** [normalize.fix_entities] and [normalize.ascify]: functions of the
    module [normalize], which the program imports. *)
Variable fix_entities : pystr → pystr.
Variable ascify : pystr → pystr.

(** [collected[term]] on the [defaultdict(lambda: Entry(set(), []))]. *)
Definition get_or_new (collected : gmap pystr Entry) (term : pystr) : Entry :=
  default (mkEntry ∅ []) (collected !! term).

(** One iteration of the [for e in entries] loop. *)
Definition collect_entry (collected : gmap pystr Entry) (e : pystr)
  : result (gmap pystr Entry) :=
  let e := fix_entities e in
  hwds ← extract_headwords e;
  match hwds with
  | [] => Err (AssertionError (EntryText e))     (* [assert len(headwords) >= 1, e] *)
  | first :: _ =>
      let term := ascify first in
      if negb (truthy term) || existsb (λ h, negb (truthy h)) hwds then
        Err (BadNormalization term hwds e)
      else
        let old := get_or_new collected term in
        Ok (<[term := mkEntry (headwords old ∪ list_to_set hwds)
                              (defns old ++ [e])]> collected)
  end.

Definition collect_entries (entries : list pystr) : result (gmap pystr Entry) :=
  for_each collect_entry ∅ entries.

(** The canonical key of an entry: the ascified first headword, when the
    extraction returns one. *)
Definition key_of (e : pystr) : option pystr :=
  match extract_headwords (fix_entities e) with
  | Ok (first :: _) => Some (ascify first)
  | _ => None
  end.

(** No key and no headword spelling of the mapping is the empty string. *)
Definition keys_and_spellings_nonempty (m : gmap pystr Entry) : Prop :=
  ∀ k r, m !! k = Some r → k ≠ [] ∧ [] ∉ headwords r.
End Aggregator.

(** * The vocabulary of the statements *)

(** A string is trimmed when neither end is white space. *)
Definition trimmed (s : pystr) : Prop :=
  (∀ c, head s = Some c → isspace c = false)
  ∧ (∀ c, last s = Some c → isspace c = false).

(** What an entry block is made of: the trimmed line that opened it,
    followed by each trimmed continuation line with a line feed after it
    ([partial = line], then [partial += line + '\n']). *)
Definition render (start : pystr) (conts : list pystr) : pystr :=
  strip start ++ concat (map (λ l, strip l ++ nl) conts).

(** [sep.join(ls)] *)
Fixpoint join (sep : pystr) (ls : list pystr) : pystr :=
  match ls with
  | [] => []
  | [l] => l
  | l :: ls' => l ++ sep ++ join sep ls'
  end.

(** The lines of a block read back as text: the pieces between line feeds,
    where a final line feed ends the last line and opens no further one. *)
Definition lines_of (b : pystr) : list pystr :=
  let pieces := split_on LF b in
  match last pieces with
  | Some [] => removelast pieces
  | _ => pieces
  end.

(** No block in [entries] is empty: a block gets there only through
    [if partial: entries.append(partial)]. *)
Definition blocks_nonempty (v : locals) : Prop := Forall (λ b, b ≠ []) (entries v).

(** Outside [INTRO] an entry is open: [partial] is not empty. *)
Definition entry_open (v : locals) : Prop := state v ≠ S.INTRO → partial v ≠ [].

(** [made_of ls b]: the block [b] is rendered from lines of [ls], taken in
    their order, the first of which is a bolded line. *)
Definition made_of (ls : list pystr) (b : pystr) : Prop :=
  ∃ start conts,
    sublist (start :: conts) ls
    ∧ startswith bold_open (strip start) = true
    ∧ b = render start conts.

Definition well_shaped (ls : list pystr) (v : locals) : Prop :=
  Forall (made_of ls) (entries v)
  ∧ (state v ≠ S.INTRO → made_of ls (partial v))
  ∧ (state v = S.INTRO → partial v = []).

(** The two states a run of blank lines inside an entry goes through. *)
Definition entry_or_break (in_break : bool) : S.t :=
  if in_break then S.BREAK else S.ENTRY.

(** The seven lines of the specification's scenario. *)
Definition scenario : list pystr :=
  [ py ""; py "<B>word,</B> text1"; py ""; py "<B>word2,</B> text2";
    py "<HEADER>pg</HEADER>"; py ""; py "more text2" ].

(** The same lines with a blank line before the page header. *)
Definition scenario_with_break : list pystr :=
  [ py ""; py "<B>word,</B> text1"; py ""; py "<B>word2,</B> text2"; py "";
    py "<HEADER>pg</HEADER>"; py ""; py "more text2" ].

(** A transcript whose line 332, an ordinal of [NOT_AN_ENTRY], is a bolded
    line inside the entry opened at line 329. *)
Definition transcript_332 : list pystr :=
  replicate 328 []
  ++ [ py "<B>a</B>"; py "x"; py "y"; py "<B>b</B>"; py ""; py "<B>c</B>" ].

(** [matches r len s s']: [r] matches the part of [s] that ends where [s']
    starts. *)
Definition matches (r : regex) (len : nat) (s s' : pystr) : Prop :=
  ∃ c, (c, s') ∈ ends r len s.

(** One or more steps of [R], each but the last consuming something. *)
Inductive plus_rel (R : pystr → pystr → Prop) : pystr → pystr → Prop :=
| plus_one s s' : R s s' → plus_rel R s s'
| plus_more s s1 s' :
    R s s1 → (length s1 < length s)%nat → plus_rel R s1 s' → plus_rel R s s'.

(** What [re.sub(r, '', u)] leaves of [u] when a match of [r] always runs to
    the end of the subject: the text before the leftmost match. *)
Fixpoint before_match (r : regex) (len : nat) (u : pystr) : pystr :=
  match u with
  | [] => []
  | c :: u' =>
      match ends r len u with
      | [] => c :: before_match r len u'
      | _ :: _ => []
      end
  end.

(** A reference marker: a run of the letters [ivx], one letter of
    [abcdefoα], or a run of digits. *)
Definition is_part_ref (m : pystr) : bool :=
  truthy m && forallb (member (py "ivx")) m
  || match m with
     | [c] => member (py "abcdefo" ++ [945]) c
     | _ => false
     end
  || truthy m && forallb is_digit m.

(** The characters markers are made of. *)
Definition is_ref_char (c : N) : bool :=
  member (py "ivx") c || member (py "abcdefo" ++ [945]) c || is_digit c.

(** Markers written one after another, each after one space. *)
Definition ref_chain (ms : list pystr) : pystr :=
  concat (map (λ m, SPACE :: m) ms).

(** [is_ref_chain at_start u]: [u] is one or more markers, each after one
    space, where the first space may be missing if [u] starts the subject. *)
Definition is_ref_chain (at_start : bool) (u : pystr) : bool :=
  match split_on SPACE u with
  | [] :: m :: ms => forallb is_part_ref (m :: ms)
  | ps => at_start && forallb is_part_ref ps
  end.

(** The text of [u] before its leftmost suffix that is a chain of markers;
    [len] is the length of the subject [u] is a suffix of. *)
Fixpoint cut_refs (len : nat) (u : pystr) : pystr :=
  match u with
  | [] => []
  | c :: u' =>
      if is_ref_chain (length u =? len)%nat u then [] else c :: cut_refs len u'
  end.

(** In ASCII: a letter, a digit, the underscore, the space or the hyphen. *)
Definition ascii_kept (c : N) : bool :=
  ascii_word c || (c =? SPACE) || (c =? HYPHEN).

(** Tables that are right on ASCII text and leave every other character
    alone: an instance of [Unicode] to evaluate ASCII examples with. *)
#[program] Definition ascii_tables : Unicode :=
  {| lower := map ascii_lower; nfkd := λ s, s; isword := ascii_word |}.
Solve All Obligations with done.

(** [starts_entry k raw]: the line [raw], read as line number [k], takes the
    first branch of the loop body: it starts with the bold marker and [k] is
    not in [NOT_AN_ENTRY]. *)
Definition starts_entry (k : N) (raw : pystr) : bool :=
  startswith bold_open (strip raw) && negb (bool_decide (k ∈ NOT_AN_ENTRY)).

(** The number of lines of [ls] that start an entry, when the line before
    the first of them has the number [k]. *)
Fixpoint count_starts (k : N) (ls : list pystr) : nat :=
  match ls with
  | [] => 0
  | l :: ls' =>
      ((if starts_entry (N.succ k) l then 1 else 0)
       + count_starts (N.succ k) ls')%nat
  end.

(** The longest prefix of [s] made of characters of the class [ok]. *)
Fixpoint run_of (ok : N → bool) (s : pystr) : pystr :=
  match s with
  | c :: s' => if ok c then c :: run_of ok s' else []
  | [] => []
  end.

(** The bolded text an entry begins with, as [^<B>([^<]+)</B>] reads it: the
    text after ["<B>"] up to the next ['<'], provided it is not empty and
    the tag that follows it is ["</B>"]. *)
Definition bold_text (e : pystr) : option pystr :=
  if startswith (py "<B>") e then
    let g := run_of (λ c, negb (c =? 60)) (drop 3 e) in
    if truthy g && startswith (py "</B>") (drop (3 + length g) e)
    then Some g else None
  else None.

(** The matches of [([^<]+)</B>], by the number of characters the group
    takes. *)
Definition group_close_at (s : pystr) (k : nat) : list mstate :=
  if startswith (py "</B>") (drop k s)
  then [(Some (take (length s - length (drop k s)) s), drop 4 (drop k s))]
  else [].

(** The two list comprehensions at the end of [extract_headwords]: the one
    that drops the pieces with a trailing hyphen, and the one that drops the
    pieces with a leading hyphen. *)
Definition drop_prefix_fragments (short_words : list pystr) : list pystr :=
  map snd
    (List.filter
       (λ iw, negb (endswith [HYPHEN] (snd iw))
              || (fst iw + 1 =? length short_words)%nat)
       (enumerate short_words)).

Definition drop_suffix_fragments (full_words : list pystr) : list pystr :=
  map snd
    (List.filter
       (λ iw, negb (startswith [HYPHEN] (snd iw)) || (fst iw =? 0)%nat)
       (enumerate full_words)).

(** The comma pieces of the bolded text [g], cleaned, without the empty
    ones: the list [short_words] of [extract_headwords]. *)
Definition cleaned_pieces {U : Unicode} (g : pystr) : list pystr :=
  List.filter truthy
    (map remove_trailing_part_refs
       (map (λ s, unaccented_letters (lower s)) (split_on COMMA g))).

(** The headword [HEADWORD_SPECIAL_CASES] gives for the entry [e]: that of
    the first prefix of the table [e] starts with. *)
Definition special_case (e : pystr) : option pystr :=
  snd <$> List.find (λ kv, startswith (fst kv) e) HEADWORD_SPECIAL_CASES.

(** The cleaning of one comma piece of the bolded text. *)
Definition cleaned {U : Unicode} (piece : pystr) : pystr :=
  remove_trailing_part_refs (unaccented_letters (lower piece)).

(** The number of definitions a mapping holds, over all its records. *)
Definition total_defns (m : gmap pystr Entry) : nat :=
  map_fold (λ _ r acc, (length (defns r) + acc)%nat) 0%nat m.

(** [main], from the lines of its input to the mapping it writes out:
    [entries = read_entries(ascii_stdin)], then
    [collected = collect_entries(entries)]. *)
Definition main_collected {U : Unicode} (fix_entities ascify : pystr → pystr)
    (ascii_stdin : list pystr) : result (gmap pystr Entry) :=
  entries ← read_entries ascii_stdin;
  collect_entries fix_entities ascify entries.

(** * Properties *)

(** ** Exceptions and loops *)

Lemma bind_Ok {A B : Type} (r : result A) (k : A → result B) (b : B) :
  r ≫= k = Ok b ↔ ∃ a, r = Ok a ∧ k a = Ok b.
Proof.
  destruct r as [a|x]; simpl; split.
  - eauto.
  - intros (a' & [= <-] & Hk). done.
  - done.
  - intros (a' & [=] & _).
Qed.

Lemma bind_Ok_l {A B : Type} (a : A) (k : A → result B) : Ok a ≫= k = k a.
Proof. done. Qed.

Lemma bind_Err_l {A B : Type} (x : exn) (k : A → result B) :
  (Err x : result A) ≫= k = Err x.
Proof. done. Qed.

Lemma assert_Ok (cond : bool) (msg : assert_msg) (u : unit) :
  assert cond msg = Ok u ↔ cond = true.
Proof. destruct cond, u; simpl; split; done. Qed.

Lemma for_each_app {A X : Type} (body : A → X → result A) (acc : A) (xs ys : list X) :
  for_each body acc (xs ++ ys)
  = for_each body acc xs ≫= λ acc', for_each body acc' ys.
Proof.
  revert acc. induction xs as [|x xs IH]; intros acc; simpl; [done|].
  destruct (body acc x) as [acc'|e]; simpl; [apply IH | done].
Qed.

(** A property that holds of the start value and is kept by every
    iteration holds when the loop completes. *)
Lemma for_each_invariant {A X : Type} (body : A → X → result A) (P : A → Prop) :
  (∀ acc x acc', P acc → body acc x = Ok acc' → P acc') →
  ∀ xs acc acc', P acc → for_each body acc xs = Ok acc' → P acc'.
Proof.
  intros Hstep xs. induction xs as [|x xs IH]; simpl; intros acc acc' HP H.
  - by injection H as <-.
  - apply bind_Ok in H as (mid & Hb & Hrest). eauto.
Qed.

(** ** Trimming *)

Lemma lstrip_split (s : pystr) :
  ∃ pre, s = pre ++ lstrip s ∧ Forall (λ c, isspace c = true) pre.
Proof.
  induction s as [|c s (pre & Hs & Hpre)]; simpl.
  - by exists [].
  - destruct (isspace c) eqn:Hc.
    + exists (c :: pre). split; [by rewrite Hs at 1 | by constructor].
    + by exists [].
Qed.

Lemma lstrip_head (s : pystr) (c : N) :
  head (lstrip s) = Some c → isspace c = false.
Proof.
  induction s as [|c' s IH]; simpl; [done|].
  destruct (isspace c') eqn:Hc; [done|]. simpl. by intros [= <-].
Qed.

Lemma lstrip_id (s : pystr) :
  (∀ c, head s = Some c → isspace c = false) → lstrip s = s.
Proof. destruct s as [|c s]; simpl; [done|]. intros H. by rewrite (H c). Qed.

Lemma rstrip_split (s : pystr) :
  ∃ post, s = rstrip s ++ post ∧ Forall (λ c, isspace c = true) post.
Proof.
  unfold rstrip. destruct (lstrip_split (reverse s)) as (pre & Hs & Hpre).
  exists (reverse pre). split.
  - rewrite <- reverse_app, <- Hs. by rewrite reverse_involutive.
  - by apply Forall_reverse.
Qed.

Lemma rstrip_last (s : pystr) (c : N) :
  last (rstrip s) = Some c → isspace c = false.
Proof. unfold rstrip. rewrite last_reverse. apply lstrip_head. Qed.

Lemma rstrip_id (s : pystr) :
  (∀ c, last s = Some c → isspace c = false) → rstrip s = s.
Proof.
  intros H. unfold rstrip. rewrite lstrip_id, reverse_involutive; [done|].
  intros c. rewrite head_reverse. apply H.
Qed.

Lemma strip_trimmed (s : pystr) : trimmed (strip s).
Proof.
  unfold strip. split; [|apply rstrip_last].
  intros c Hc. apply (lstrip_head s).
  destruct (rstrip_split (lstrip s)) as (post & Hs & _).
  rewrite Hs. by destruct (rstrip (lstrip s)).
Qed.

Lemma strip_id (s : pystr) : trimmed s → strip s = s.
Proof.
  intros [Hh Hl]. unfold strip. rewrite (lstrip_id s) by done. by apply rstrip_id.
Qed.

Lemma strip_idemp (s : pystr) : strip (strip s) = strip s.
Proof. apply strip_id, strip_trimmed. Qed.

(** ** The segmenter, line by line *)

Lemma S_eqb_eq (a b : S.t) : S.eqb a b = true ↔ a = b.
Proof. destruct a, b; simpl; split; done. Qed.

Lemma S_eqb_neq (a b : S.t) : S.eqb a b = false ↔ a ≠ b.
Proof. destruct a, b; simpl; split; done. Qed.

Lemma truthy_nonempty (s : pystr) : truthy s = true ↔ s ≠ [].
Proof. destruct s; simpl; split; done. Qed.

Lemma startswith_nonempty (pfx s : pystr) :
  pfx ≠ [] → startswith pfx s = true → s ≠ [].
Proof. destruct pfx, s; simpl; done. Qed.

(** Splits [read_line v raw = Ok v'] into the branches of the loop body. *)
Ltac read_line_cases H :=
  unfold read_line in H;
  repeat match type of H with
    | (if ?c then _ else _) = _ => destruct c eqn:?
    | _ ≫= _ = Ok _ => apply bind_Ok in H as ([] & ?%assert_Ok & H)
    | Ok _ = Ok _ => injection H as <-
    end.

Lemma read_line_counts (v v' : locals) (raw : pystr) :
  read_line v raw = Ok v' → n v' = N.succ (n v).
Proof. intros H. read_line_cases H; done. Qed.

Lemma for_each_read_line_counts (ls : list pystr) (v v' : locals) :
  for_each read_line v ls = Ok v' → n v' = n v + N.of_nat (length ls).
Proof.
  revert v. induction ls as [|l ls IH]; simpl; intros v H.
  - injection H as <-. lia.
  - apply bind_Ok in H as (mid & H1%read_line_counts & H2%IH). lia.
Qed.

Lemma read_line_blocks_nonempty (v : locals) (raw : pystr) (v' : locals) :
  blocks_nonempty v → read_line v raw = Ok v' → blocks_nonempty v'.
Proof.
  unfold blocks_nonempty. intros Hv H. read_line_cases H; simpl; try done.
  destruct (truthy (partial v)) eqn:Ht; [|done].
  apply Forall_app. split; [done|]. apply Forall_singleton.
  by apply truthy_nonempty.
Qed.

Lemma read_line_entry_open (v : locals) (raw : pystr) (v' : locals) :
  entry_open v → read_line v raw = Ok v' → entry_open v'.
Proof.
  unfold entry_open. intros Hv H.
  read_line_cases H; cbn [state partial]; try done; intros _.
  - apply andb_prop in Heqb as [Hb _].
    by eapply (startswith_nonempty bold_open).
  - apply Hv. by apply S_eqb_neq.
  - apply Hv. by apply S_eqb_neq.
  - intros [? _]%app_eq_nil. by apply truthy_nonempty in H0.
Qed.

Lemma initial_blocks_nonempty : blocks_nonempty initial.
Proof. constructor. Qed.

Lemma initial_entry_open : entry_open initial.
Proof. intros H. by destruct H. Qed.

Lemma reachable_entry_open (pre : list pystr) (v : locals) :
  for_each read_line initial pre = Ok v → entry_open v.
Proof.
  apply (for_each_invariant read_line entry_open); [|apply initial_entry_open].
  intros acc x acc'. apply read_line_entry_open.
Qed.

Lemma reachable_counts (pre : list pystr) (v : locals) :
  for_each read_line initial pre = Ok v → n v = N.of_nat (length pre).
Proof. intros H%for_each_read_line_counts. by rewrite H. Qed.

Lemma read_line_blank_in_entry (v : locals) (raw : pystr) :
  state v = S.ENTRY → strip raw = [] →
  read_line v raw = Ok (Locals S.BREAK (partial v) (entries v) (N.succ (n v))).
Proof. intros Hs Hb. unfold read_line. rewrite Hs, Hb. done. Qed.

Lemma read_line_blank_in_break (v : locals) (raw : pystr) :
  state v = S.BREAK → strip raw = [] → partial v ≠ [] →
  read_line v raw
  = Ok (Locals S.ENTRY (partial v ++ nl) (entries v) (N.succ (n v))).
Proof.
  intros Hs Hb Hp%truthy_nonempty. unfold read_line. rewrite Hs, Hb. simpl.
  rewrite Hp, orb_true_r. done.
Qed.

(** A bolded line outside [NOT_AN_ENTRY] read in a state other than
    [ENTRY] opens an entry and emits the one that was open. *)
Lemma read_line_opens_entry (v : locals) (raw : pystr) :
  state v ≠ S.ENTRY →
  (state v = S.INTRO → partial v = []) →
  startswith bold_open (strip raw) = true →
  N.succ (n v) ∉ NOT_AN_ENTRY →
  read_line v raw
  = Ok (Locals S.ENTRY (strip raw)
          (if truthy (partial v) then entries v ++ [partial v] else entries v)
          (N.succ (n v))).
Proof.
  intros Hs Hintro Hb Hnot. unfold read_line.
  rewrite Hb, (bool_decide_eq_false_2 _ Hnot). simpl.
  destruct (state v) eqn:Est; simpl; try done.
  by rewrite Hintro.
Qed.

(** ** The shape of the blocks *)

Lemma made_of_more (ls : list pystr) (raw : pystr) (b : pystr) :
  made_of ls b → made_of (ls ++ [raw]) b.
Proof.
  intros (start & conts & Hsub & Hb & ->). exists start, conts.
  split; [|done]. by apply sublist_inserts_r.
Qed.

Lemma render_snoc (start : pystr) (conts : list pystr) (raw : pystr) :
  render start (conts ++ [raw]) = render start conts ++ strip raw ++ nl.
Proof.
  unfold render. rewrite map_app, concat_app. simpl.
  by rewrite app_nil_r, app_assoc.
Qed.

Lemma read_line_well_shaped (ls : list pystr) (v : locals) (raw : pystr)
    (v' : locals) :
  well_shaped ls v → read_line v raw = Ok v' → well_shaped (ls ++ [raw]) v'.
Proof.
  intros (Hes & Hp & Hintro) H.
  assert (Forall (made_of (ls ++ [raw])) (entries v)) as Hes'.
  { eapply Forall_impl; [done|]. intros b. apply made_of_more. }
  read_line_cases H; unfold well_shaped; cbn [state partial entries];
    (split; [|split]); try done.
  - (* a new entry starts: the open one is emitted *)
    destruct (truthy (partial v)) eqn:Ht; [|done].
    apply Forall_app. split; [done|]. apply Forall_singleton.
    apply made_of_more, Hp. intros Hs. rewrite Hintro in Ht; done.
  - intros _. exists raw, []. repeat split.
    + apply sublist_inserts_l. by apply sublist_skip, sublist_nil_l.
    + by apply andb_prop in Heqb as [? _].
    + unfold render. simpl. by rewrite app_nil_r.
  - intros Hs. by apply S_eqb_eq in Heqb0.
  - intros _. apply made_of_more, Hp. by apply S_eqb_neq.
  - intros _. apply made_of_more, Hp. by apply S_eqb_neq.
  - intros Hs. by apply made_of_more, Hp.
  - (* a continuation line *)
    intros _. destruct Hp as (start & conts & Hsub & Hb & Hrender).
    { by apply S_eqb_neq. }
    exists start, (conts ++ [raw]). repeat split.
    + by apply (sublist_app (start :: conts) ls [raw] [raw]).
    + done.
    + by rewrite render_snoc, Hrender.
Qed.

Lemma for_each_well_shaped (rest ls : list pystr) (v v' : locals) :
  well_shaped ls v → for_each read_line v rest = Ok v' →
  well_shaped (ls ++ rest) v'.
Proof.
  revert ls v. induction rest as [|raw rest IH]; simpl; intros ls v Hv H.
  - injection H as <-. by rewrite app_nil_r.
  - apply bind_Ok in H as (mid & H1 & H2).
    replace (ls ++ raw :: rest) with ((ls ++ [raw]) ++ rest)
      by (by rewrite <- app_assoc).
    eapply IH; [|done]. by eapply read_line_well_shaped.
Qed.

(** Every block [read_entries] returns is rendered from lines of the input:
    a bolded line, trimmed, and after it each continuation line, trimmed and
    followed by a line feed. *)
Lemma read_entries_block_shape (in_file es : list pystr) :
  read_entries in_file = Ok es → ∀ b, b ∈ es → made_of in_file b.
Proof.
  unfold read_entries. intros (v & Hloop & [= <-])%bind_Ok.
  assert (well_shaped in_file v) as (Hes & Hp & Hintro).
  { apply (for_each_well_shaped in_file [] initial v); [|done].
    split; [constructor|]. split; [by intros []|done]. }
  unfold finish. intros b. destruct (truthy (partial v)) eqn:Ht.
  - intros [Hb | ->%list_elem_of_singleton]%elem_of_app.
    + by eapply Forall_forall in Hes.
    + apply Hp. intros Hs. rewrite Hintro in Ht; done.
  - intros Hb. by eapply Forall_forall in Hes.
Qed.

Lemma startswith_app (pfx s t : pystr) :
  startswith pfx s = true → startswith pfx (s ++ t) = true.
Proof.
  revert s. induction pfx as [|p pfx IH]; intros [|c s]; simpl; try done.
  intros [-> H]%andb_prop. by rewrite IH.
Qed.

Lemma made_of_starts_bold (ls : list pystr) (b : pystr) :
  made_of ls b → startswith bold_open b = true.
Proof. intros (start & conts & _ & Hb & ->). by apply startswith_app. Qed.

(** A block without a line feed has no continuation line: it is the trimmed
    bolded line alone. *)
Lemma made_of_single_line (ls : list pystr) (b : pystr) :
  made_of ls b → LF ∉ b → trimmed b.
Proof.
  intros (start & [|l conts] & _ & _ & ->) Hlf.
  - unfold render. simpl. rewrite app_nil_r. apply strip_trimmed.
  - exfalso. apply Hlf. unfold render, nl. simpl. set_solver.
Qed.

Lemma split_on_absent (sep : N) (s : pystr) : sep ∉ s → split_on sep s = [s].
Proof.
  induction s as [|c s IH]; simpl; [done|].
  intros [Hc Hs]%not_elem_of_cons. rewrite IH by done.
  destruct (N.eqb_spec c sep); [by subst|done].
Qed.

Lemma lines_of_single_line (b : pystr) : LF ∉ b → b ≠ [] → lines_of b = [b].
Proof.
  intros Hlf Hb. unfold lines_of. rewrite split_on_absent by done. simpl.
  by destruct b.
Qed.

Lemma one_not_excluded : N.succ (n initial) ∉ NOT_AN_ENTRY.
Proof. vm_compute. intros H. discriminate H. Qed.

Lemma three_not_excluded : N.succ (N.succ (N.succ (n initial))) ∉ NOT_AN_ENTRY.
Proof. vm_compute. intros H. discriminate H. Qed.

(** Two trimmed bolded lines with one blank line between them are read as
    two entries. *)
Lemma read_entries_two_single_lines (b1 b2 : pystr) :
  trimmed b1 → trimmed b2 →
  startswith bold_open b1 = true → startswith bold_open b2 = true →
  read_entries [b1; []; b2] = Ok [b1; b2].
Proof.
  intros Ht1 Ht2 Hb1 Hb2. unfold read_entries. cbn [for_each].
  rewrite read_line_opens_entry;
    [|done|done|by rewrite strip_id|apply one_not_excluded].
  rewrite bind_Ok_l, read_line_blank_in_entry by done.
  rewrite bind_Ok_l, read_line_opens_entry;
    [|done|done|by rewrite strip_id|apply three_not_excluded].
  rewrite !bind_Ok_l, !strip_id by done. unfold finish. simpl.
  assert (truthy b1 = true) as ->.
  { apply truthy_nonempty. by eapply (startswith_nonempty bold_open). }
  assert (truthy b2 = true) as ->.
  { apply truthy_nonempty. by eapply (startswith_nonempty bold_open). }
  done.
Qed.

(** Blank lines read one after another inside an entry: the state goes to
    and fro between [ENTRY] and [BREAK], and every second blank line adds a
    line feed to the open entry. *)
Lemma read_blanks (blanks : list pystr) (v : locals) (in_break : bool) :
  Forall (λ l, strip l = []) blanks →
  state v = entry_or_break in_break →
  partial v ≠ [] →
  for_each read_line v blanks
  = Ok (Locals (entry_or_break (xorb in_break (Nat.odd (length blanks))))
          (partial v
           ++ concat (replicate ((Nat.b2n in_break + length blanks) / 2) nl))
          (entries v)
          (n v + N.of_nat (length blanks))).
Proof.
  intros Hblanks. revert v in_break.
  induction Hblanks as [|raw blanks Hraw _ IH]; intros v in_break Hs Hp.
  - simpl. destruct v as [st p es k]. simpl in *. subst st.
    rewrite N.add_0_r, xorb_false_r.
    destruct in_break; simpl; by rewrite app_nil_r.
  - cbn [for_each]. destruct in_break; simpl in Hs.
    + rewrite read_line_blank_in_break by done. rewrite bind_Ok_l.
      rewrite (IH _ false) by (done || by intros [? _]%app_eq_nil).
      cbn [state partial entries n length Nat.b2n].
      rewrite Nat.odd_succ, <- Nat.negb_odd.
      replace ((1 + S (length blanks)) / 2)%nat
        with (S ((0 + length blanks) / 2))
        by (change (1 + S (length blanks))%nat with (1 * 2 + length blanks)%nat;
            by rewrite Nat.div_add_l).
      simpl. rewrite <- app_assoc.
      f_equal. f_equal; [by destruct (Nat.odd (length blanks))|lia].
    + rewrite read_line_blank_in_entry by done. rewrite bind_Ok_l.
      rewrite (IH _ true) by done.
      cbn [state partial entries n length Nat.b2n].
      rewrite Nat.odd_succ, <- Nat.negb_odd.
      f_equal. f_equal. lia.
Qed.

(** ** The segmenter: claims *)

(** C1, as the specification states it, fails: on the seven lines of the
    scenario [read_entries] does not return the two blocks
    ["<B>word,</B> text1"] and ["<B>word2,</B> text2\nmore text2"]. *)
Lemma scenario_does_not_complete :
  read_entries scenario
  ≠ Ok [ py "<B>word,</B> text1";
         py "<B>word2,</B> text2" ++ nl ++ py "more text2" ].
Proof. vm_compute. discriminate. Qed.

(** C1, amended: on the seven lines of the scenario [read_entries] raises
    the assertion error of the page-header branch, because the header at
    ordinal 5 arrives in state [ENTRY] with no blank line before it. With a
    blank line before the header the run completes with exactly two blocks:
    the first is ["<B>word,</B> text1"], the second starts with the second
    entry's bolded line and holds its continuation line, so the header and
    the blank lines are discarded and do not split the entry. *)
Theorem scenario_header_needs_break :
  read_entries scenario = Err (AssertionError NoMessage)
  ∧ for_each read_line initial (take 4 scenario)
    = Ok (Locals S.ENTRY (py "<B>word2,</B> text2") [py "<B>word,</B> text1"] 4)
  ∧ read_line
      (Locals S.ENTRY (py "<B>word2,</B> text2") [py "<B>word,</B> text1"] 4)
      (py "<HEADER>pg</HEADER>")
    = Err (AssertionError NoMessage)
  ∧ ∃ b tail,
      read_entries scenario_with_break = Ok [py "<B>word,</B> text1"; b]
      ∧ b = py "<B>word2,</B> text2" ++ py "more text2" ++ tail.
Proof.
  repeat split; try (vm_compute; reflexivity).
  exists (py "<B>word2,</B> text2more text2" ++ nl), nl.
  split; vm_compute; reflexivity.
Qed.

(** C9: every entry block that [read_entries] appends to its output list,
    whether when a new entry starts (the list [entries] after any number of
    lines read) or at the end of the input (the list returned), is a
    non-empty string. *)
Theorem read_entries_blocks_nonempty (in_file : list pystr) (v : locals) :
  for_each read_line initial in_file = Ok v →
  (∀ b, b ∈ entries v → b ≠ [])
  ∧ read_entries in_file = Ok (finish v)
  ∧ (∀ b, b ∈ finish v → b ≠ []).
Proof.
  intros Hloop.
  assert (blocks_nonempty v) as Hv.
  { revert Hloop. apply for_each_invariant; [|apply initial_blocks_nonempty].
    intros acc x acc'. apply read_line_blocks_nonempty. }
  split; [|split].
  - intros b Hb. by eapply Forall_forall in Hv.
  - unfold read_entries. by rewrite Hloop.
  - unfold finish. intros b. destruct (truthy (partial v)) eqn:Hp.
    + intros [Hb | ->%list_elem_of_singleton]%elem_of_app.
      * by eapply Forall_forall in Hv.
      * by apply truthy_nonempty.
    + intros Hb. by eapply Forall_forall in Hv.
Qed.

Lemma read_entries_blocks_nonempty_witness :
  (∀ b, b ∈ [py "<B>word,</B> text1"] → b ≠ [])
  ∧ read_entries scenario_with_break
    = Ok [ py "<B>word,</B> text1"; py "<B>word2,</B> text2more text2" ++ nl ]
  ∧ (∀ b, b ∈ [ py "<B>word,</B> text1"; py "<B>word2,</B> text2more text2" ++ nl ]
          → b ≠ []).
Proof.
  apply (read_entries_blocks_nonempty scenario_with_break
           (Locals S.ENTRY (py "<B>word2,</B> text2more text2" ++ nl)
              [py "<B>word,</B> text1"] 8)).
  vm_compute. reflexivity.
Defined.

(** C6: a line that starts with the bold marker, at an ordinal outside both
    exception sets, read in state [ENTRY], raises an assertion error whose
    message is the pair of the state and the ordinal. The error ends the
    run: the lines after it are not read and no entry list is returned. *)
Theorem bold_line_inside_entry_is_fatal (pre : list pystr) (v : locals)
    (raw : pystr) (rest : list pystr) :
  for_each read_line initial pre = Ok v →
  state v = S.ENTRY →
  startswith bold_open (strip raw) = true →
  N.of_nat (length pre) + 1 ∉ NOT_AN_ENTRY →
  N.of_nat (length pre) + 1 ∉ ALWAYS_AN_ENTRY →
  read_line v raw
  = Err (AssertionError (StateOrdinal S.ENTRY (N.of_nat (length pre) + 1)))
  ∧ read_entries (pre ++ raw :: rest)
    = Err (AssertionError (StateOrdinal S.ENTRY (N.of_nat (length pre) + 1))).
Proof.
  intros Hpre Hs Hb Hnot Halways.
  assert (read_line v raw
          = Err (AssertionError (StateOrdinal S.ENTRY (N.of_nat (length pre) + 1))))
    as Hline.
  { unfold read_line. rewrite Hb, Hs, (reachable_counts pre v Hpre).
    rewrite <- N.add_1_r.
    rewrite (bool_decide_eq_false_2 _ Hnot), (bool_decide_eq_false_2 _ Halways).
    done. }
  split; [done|].
  unfold read_entries. rewrite for_each_app, Hpre. simpl. by rewrite Hline.
Qed.

Lemma bold_line_inside_entry_is_fatal_witness :
  read_line (Locals S.ENTRY (py "<B>a</B>") [] 1) (py "<B>b</B>")
  = Err (AssertionError (StateOrdinal S.ENTRY 2))
  ∧ read_entries ([py "<B>a</B>"] ++ py "<B>b</B>" :: [py "c"])
    = Err (AssertionError (StateOrdinal S.ENTRY 2)).
Proof.
  apply (bold_line_inside_entry_is_fatal [py "<B>a</B>"]
           (Locals S.ENTRY (py "<B>a</B>") [] 1) (py "<B>b</B>") [py "c"]);
    vm_compute; first [reflexivity | intros H; discriminate H].
Defined.

(** C2, evaluated on the code: for the bolded line ["<B>a</B>"] followed by
    the continuation line ["b"], [read_entries] returns the single block
    ["<B>a</B>b\n"]. The newline-join of the two consumed lines is
    ["<B>a</B>\nb"]: the block lacks the separator after its start line and
    ends in a line feed. *)
Theorem continuation_glued_to_start_line :
  read_entries [py "<B>a</B>"; py "b"] = Ok [py "<B>a</B>b" ++ nl]
  ∧ join nl [py "<B>a</B>"; py "b"] = py "<B>a</B>" ++ nl ++ py "b"
  ∧ py "<B>a</B>b" ++ nl ≠ join nl [py "<B>a</B>"; py "b"].
Proof. repeat split; try (vm_compute; reflexivity). vm_compute. discriminate. Qed.

(** C4, as the specification states it, fails: [transcript_332] is read as
    two blocks, and reading back the lines of the first, a blank line and
    the lines of the second raises an assertion error at the third line,
    whose ordinal is no longer in [NOT_AN_ENTRY]. *)
Lemma rerun_loses_ordinals :
  read_entries transcript_332
  = Ok [ py "<B>a</B>x" ++ nl ++ py "y" ++ nl ++ py "<B>b</B>" ++ nl;
         py "<B>c</B>" ]
  ∧ read_entries
      (lines_of (py "<B>a</B>x" ++ nl ++ py "y" ++ nl ++ py "<B>b</B>" ++ nl)
       ++ [[]] ++ lines_of (py "<B>c</B>"))
    = Err (AssertionError (StateOrdinal S.ENTRY 3)).
Proof. split; vm_compute; reflexivity. Qed.

(** C4, amended: for any two entry blocks that [read_entries] has produced
    and that hold no line feed (entries made of their bolded line alone),
    running [read_entries] on the lines of the first, one blank line and the
    lines of the second returns exactly these two blocks. *)
Theorem rerun_single_line_blocks (in1 es1 in2 es2 : list pystr) (B1 B2 : pystr) :
  read_entries in1 = Ok es1 → B1 ∈ es1 →
  read_entries in2 = Ok es2 → B2 ∈ es2 →
  LF ∉ B1 → LF ∉ B2 →
  read_entries (lines_of B1 ++ [[]] ++ lines_of B2) = Ok [B1; B2].
Proof.
  intros H1 HB1 H2 HB2 Hlf1 Hlf2.
  pose proof (read_entries_block_shape in1 es1 H1 B1 HB1) as Hm1.
  pose proof (read_entries_block_shape in2 es2 H2 B2 HB2) as Hm2.
  pose proof (made_of_starts_bold _ _ Hm1) as Hb1.
  pose proof (made_of_starts_bold _ _ Hm2) as Hb2.
  rewrite !lines_of_single_line;
    [|done|by eapply (startswith_nonempty bold_open)
      |done|by eapply (startswith_nonempty bold_open)].
  apply read_entries_two_single_lines; try done.
  - by eapply made_of_single_line.
  - by eapply made_of_single_line.
Qed.

Lemma rerun_single_line_blocks_witness :
  read_entries (lines_of (py "<B>a</B> x") ++ [[]] ++ lines_of (py "<B>c</B>"))
  = Ok [py "<B>a</B> x"; py "<B>c</B>"].
Proof.
  apply (rerun_single_line_blocks
           [py " <B>a</B> x "; py ""; py "<B>c</B>"]
           [py "<B>a</B> x"; py "<B>c</B>"]
           [py " <B>a</B> x "; py ""; py "<B>c</B>"]
           [py "<B>a</B> x"; py "<B>c</B>"]);
    first [ vm_compute; reflexivity
          | apply (bool_decide_unpack _); vm_compute; exact I ].
Defined.

(** C10: in a run of [read_entries], a blank line read in state [BREAK]
    is not discarded: it is taken as continuation text, a bare line feed is
    appended to the open entry, and the state returns to [ENTRY]. Blank
    lines read one after another from state [ENTRY] therefore alternate
    between [BREAK] and [ENTRY], every second one adding a line feed, and a
    returned block can hold an embedded blank line. *)
Theorem blank_line_after_break_continues (pre : list pystr) (v : locals) :
  for_each read_line initial pre = Ok v →
  (∀ raw, state v = S.BREAK → strip raw = [] →
     read_line v raw
     = Ok (Locals S.ENTRY (partial v ++ nl) (entries v) (N.succ (n v))))
  ∧ (∀ blanks, state v = S.ENTRY → Forall (λ l, strip l = []) blanks →
       for_each read_line v blanks
       = Ok (Locals (if Nat.odd (length blanks) then S.BREAK else S.ENTRY)
               (partial v ++ concat (replicate (length blanks / 2) nl))
               (entries v)
               (n v + N.of_nat (length blanks))))
  ∧ read_entries [py "<B>a</B>"; py "x"; py ""; py " "; py "y"]
    = Ok [py "<B>a</B>x" ++ nl ++ nl ++ py "y" ++ nl].
Proof.
  intros Hpre. pose proof (reachable_entry_open pre v Hpre) as Hopen.
  split; [|split].
  - intros raw Hs Hraw. apply read_line_blank_in_break; try done.
    apply Hopen. by rewrite Hs.
  - intros blanks Hs Hblanks.
    rewrite (read_blanks blanks v false); try done.
    apply Hopen. by rewrite Hs.
  - vm_compute. reflexivity.
Qed.

Lemma blank_line_after_break_continues_witness :
  for_each read_line initial [py "<B>a</B>"; py ""]
  = Ok (Locals S.BREAK (py "<B>a</B>") [] 2)
  ∧ read_line (Locals S.BREAK (py "<B>a</B>") [] 2) (py "  ")
    = Ok (Locals S.ENTRY (py "<B>a</B>" ++ nl) [] 3).
Proof.
  split; [vm_compute; reflexivity|].
  apply (blank_line_after_break_continues [py "<B>a</B>"; py ""]
           (Locals S.BREAK (py "<B>a</B>") [] 2));
    vm_compute; reflexivity.
Defined.

(** ** The matcher *)

Lemma elem_of_plus_iter (step : pystr → list mstate) (fuel : nat)
    (s s' : pystr) :
  (length s < fuel)%nat →
  (∃ c, (c, s') ∈ plus_iter step fuel s)
  ↔ plus_rel (λ s s1, ∃ c, (c, s1) ∈ step s) s s'.
Proof.
  intros Hfuel. split.
  - clear Hfuel. revert s. induction fuel as [|fuel IH]; intros s [c Hc]; simpl in Hc.
    + by apply elem_of_nil in Hc.
    + apply list_elem_of_bind in Hc as ([c1 s1] & Hc & Hstep).
      apply elem_of_app in Hc as [Hc|Hc].
      * destruct (length s1 <? length s)%nat eqn:Hlt; [|by apply elem_of_nil in Hc].
        apply list_elem_of_bind in Hc as ([c2 s2] & Hc & Hiter).
        apply list_elem_of_singleton in Hc as [= -> ->].
        eapply plus_more; [by eexists| by apply Nat.ltb_lt |].
        apply IH. by eexists.
      * apply list_elem_of_singleton in Hc as [= -> ->].
        apply plus_one. by eexists.
  - intros Hrel. revert fuel Hfuel.
    induction Hrel as [s s' [c Hc]|s s1 s' [c1 Hc1] Hlt _ IH]; intros fuel Hfuel;
      (destruct fuel as [|fuel]; [lia|]); simpl.
    + exists c. apply list_elem_of_bind. exists (c, s'). split; [|done].
      apply elem_of_app. right. by apply list_elem_of_singleton.
    + destruct (IH fuel) as [c2 Hc2]; [lia|].
      exists (later_group c1 c2). apply list_elem_of_bind. exists (c1, s1).
      split; [|done]. apply elem_of_app. left.
      apply Nat.ltb_lt in Hlt. rewrite Hlt.
      apply list_elem_of_bind. exists (c2, s'). split; [|done].
      by apply list_elem_of_singleton.
Qed.

Lemma matches_eps (len : nat) (s s' : pystr) : matches Eps len s s' ↔ s' = s.
Proof.
  unfold matches. simpl. split.
  - by intros [c [= _ ->]%list_elem_of_singleton].
  - intros ->. exists None. by apply list_elem_of_singleton.
Qed.

Lemma matches_chr (ok : N → bool) (len : nat) (s s' : pystr) :
  matches (Chr ok) len s s' ↔ ∃ c, s = c :: s' ∧ ok c = true.
Proof.
  unfold matches. simpl. split.
  - intros [c Hc]. destruct s as [|c0 s]; [by apply elem_of_nil in Hc|].
    destruct (ok c0) eqn:Hok; [|by apply elem_of_nil in Hc].
    apply list_elem_of_singleton in Hc as [= _ ->]. eauto.
  - intros (c & -> & Hok). rewrite Hok. exists None.
    by apply list_elem_of_singleton.
Qed.

Lemma matches_cat (a b : regex) (len : nat) (s s' : pystr) :
  matches (Cat a b) len s s' ↔ ∃ s1, matches a len s s1 ∧ matches b len s1 s'.
Proof.
  unfold matches. simpl. split.
  - intros [c Hc]. apply list_elem_of_bind in Hc as ([c1 s1] & Hc & Ha).
    apply list_elem_of_bind in Hc as ([c2 s2] & Hc & Hb).
    apply list_elem_of_singleton in Hc as [= -> ->]. eauto.
  - intros (s1 & [c1 Ha] & [c2 Hb]). exists (later_group c1 c2).
    apply list_elem_of_bind. exists (c1, s1). split; [|done].
    apply list_elem_of_bind. exists (c2, s'). split; [|done].
    by apply list_elem_of_singleton.
Qed.

Lemma matches_alt (a b : regex) (len : nat) (s s' : pystr) :
  matches (Alt a b) len s s' ↔ matches a len s s' ∨ matches b len s s'.
Proof.
  unfold matches. simpl. split.
  - intros [c [Hc|Hc]%elem_of_app]; eauto.
  - intros [[c Hc]|[c Hc]]; exists c; apply elem_of_app; eauto.
Qed.

Lemma matches_plus (a : regex) (len : nat) (s s' : pystr) :
  matches (Plus a) len s s' ↔ plus_rel (matches a len) s s'.
Proof.
  apply (elem_of_plus_iter (ends a len) (Datatypes.S (length s)) s s'). lia.
Qed.

Lemma matches_group (a : regex) (len : nat) (s s' : pystr) :
  matches (Group a) len s s' ↔ matches a len s s'.
Proof.
  unfold matches. simpl. split.
  - intros [c Hc]. apply list_elem_of_bind in Hc as ([c1 s1] & Hc & Ha).
    apply list_elem_of_singleton in Hc as [= -> ->]. eauto.
  - intros [c Ha]. eexists. apply list_elem_of_bind. exists (c, s').
    split; [|done]. by apply list_elem_of_singleton.
Qed.

Lemma matches_bol (len : nat) (s s' : pystr) :
  matches Bol len s s' ↔ s' = s ∧ length s = len.
Proof.
  unfold matches. simpl. destruct (Nat.eqb_spec (length s) len); split.
  - by intros [c [= _ ->]%list_elem_of_singleton].
  - intros [-> _]. exists None. by apply list_elem_of_singleton.
  - intros [c Hc]. by apply elem_of_nil in Hc.
  - by intros [_ ?].
Qed.

Lemma matches_eol (len : nat) (s s' : pystr) :
  matches Eol len s s' ↔ s' = s ∧ (s = [] ∨ s = [LF]).
Proof.
  unfold matches. simpl. destruct s as [|c [|c' s]].
  - split.
    + intros [c [= _ ->]%list_elem_of_singleton]. eauto.
    + intros [-> _]. exists None. by apply list_elem_of_singleton.
  - destruct (N.eqb_spec c LF) as [->|Hne]; split.
    + intros [c [= _ ->]%list_elem_of_singleton]. eauto.
    + intros [-> _]. exists None. by apply list_elem_of_singleton.
    + intros [? Hc]. by apply elem_of_nil in Hc.
    + intros [_ [[=]|[=]]]. done.
  - split.
    + intros [? Hc]. by apply elem_of_nil in Hc.
    + by intros [_ [[=]|[=]]].
Qed.

Lemma matches_plus_chr (ok : N → bool) (len : nat) (s s' : pystr) :
  matches (Plus (Chr ok)) len s s'
  ↔ ∃ m, m ≠ [] ∧ forallb ok m = true ∧ s = m ++ s'.
Proof.
  rewrite matches_plus. split.
  - induction 1 as [s s' (c & -> & Hok)%matches_chr
                   |s s1 s' (c & -> & Hok)%matches_chr _ _ (m & Hm & Hall & ->)].
    + exists [c]. simpl. by rewrite Hok.
    + exists (c :: m). simpl. by rewrite Hok, Hall.
  - intros (m & Hm & Hall & ->). induction m as [|c m IH]; [done|].
    simpl in Hall. apply andb_prop in Hall as [Hok Hall].
    destruct m as [|c' m].
    + apply plus_one. apply matches_chr. eauto.
    + apply (plus_more _ _ ((c' :: m) ++ s')); [|simpl; lia|by apply IH].
      apply matches_chr. by exists c.
Qed.

(** ** Splitting at a separator *)

Lemma split_on_app (sep : N) (p s : pystr) :
  sep ∉ p → split_on sep (p ++ sep :: s) = p :: split_on sep s.
Proof.
  induction p as [|c p IH]; simpl; intros Hp.
  - by rewrite N.eqb_refl.
  - apply not_elem_of_cons in Hp as [Hc Hp]. rewrite IH by done.
    destruct (N.eqb_spec c sep); [by subst|done].
Qed.

Lemma split_on_sep (sep : N) (s : pystr) :
  split_on sep (sep :: s) = [] :: split_on sep s.
Proof. simpl. by rewrite N.eqb_refl. Qed.

Lemma split_on_nonempty (sep : N) (s : pystr) : split_on sep s ≠ [].
Proof. destruct s as [|c s]; simpl; [done|]. by repeat case_match. Qed.

Lemma split_on_inv (sep : N) (s p : pystr) (ps : list pystr) :
  split_on sep s = p :: ps →
  (sep ∉ p)
  ∧ (ps = [] ∧ s = p
     ∨ ∃ s', s = p ++ sep :: s' ∧ split_on sep s' = ps ∧ ps ≠ []).
Proof.
  revert p ps. induction s as [|c s IH]; simpl; intros p ps H.
  - injection H as <- <-. split; [apply not_elem_of_nil|by left].
  - destruct (N.eqb_spec c sep) as [->|Hc].
    + injection H as <- <-. split; [apply not_elem_of_nil|]. right.
      exists s. split; [done|]. split; [done|]. apply split_on_nonempty.
    + destruct (split_on sep s) as [|w ws] eqn:Hs.
      * by apply split_on_nonempty in Hs.
      * injection H as <- <-. destruct (IH w ws eq_refl) as (Hw & Hcase).
        split; [by apply not_elem_of_cons|].
        destruct Hcase as [[-> ->]|(s' & -> & Hs' & Hne)]; [by left|].
        right. by exists s'.
Qed.


(** ** Reference markers *)

Lemma isspace_range (c : N) :
  isspace c = true → c ≤ 32 ∨ c = 133 ∨ c = 160 ∨ 5760 ≤ c.
Proof.
  unfold isspace.
  rewrite !orb_true_iff, !andb_true_iff, !N.leb_le, !N.eqb_eq. lia.
Qed.

Lemma ref_char_range (c : N) : is_ref_char c = true → 48 ≤ c ≤ 122 ∨ c = 945.
Proof.
  unfold is_ref_char, is_digit, member.
  rewrite !orb_true_iff, !andb_true_iff, !N.leb_le, !bool_decide_eq_true.
  change (py "ivx") with [105; 118; 120].
  change (py "abcdefo" ++ [945]) with [97; 98; 99; 100; 101; 102; 111; 945].
  rewrite !elem_of_cons, !elem_of_nil. lia.
Qed.

Lemma ref_char_plain (c : N) :
  is_ref_char c = true →
  isspace c = false ∧ c ≠ SPACE ∧ c ≠ HYPHEN ∧ c ≠ LF.
Proof.
  intros Hc%ref_char_range. unfold SPACE, HYPHEN, LF. split; [|lia].
  destruct (isspace c) eqn:Hs; [|done]. apply isspace_range in Hs. lia.
Qed.

Lemma is_part_ref_chars (m : pystr) :
  is_part_ref m = true → m ≠ [] ∧ forallb is_ref_char m = true.
Proof.
  unfold is_part_ref. intros [[H|H]%orb_prop|H]%orb_prop.
  - apply andb_prop in H as [Hm%truthy_nonempty Hall]. split; [done|].
    apply forallb_forall. intros c Hc. eapply forallb_forall in Hall; [|done].
    unfold is_ref_char. by rewrite Hall.
  - destruct m as [|c [|c' m]]; try done. split; [done|]. simpl.
    unfold is_ref_char. by rewrite H, orb_true_r.
  - apply andb_prop in H as [Hm%truthy_nonempty Hall]. split; [done|].
    apply forallb_forall. intros c Hc. eapply forallb_forall in Hall; [|done].
    unfold is_ref_char. by rewrite Hall, orb_true_r.
Qed.

Lemma is_part_ref_plain (m : pystr) (c : N) :
  is_part_ref m = true → c ∈ m →
  isspace c = false ∧ c ≠ SPACE ∧ c ≠ HYPHEN ∧ c ≠ LF.
Proof.
  intros [_ Hall]%is_part_ref_chars Hc. apply ref_char_plain.
  eapply forallb_forall in Hall; [done|]. by apply list_elem_of_In.
Qed.

Lemma is_part_ref_no_space (m : pystr) : is_part_ref m = true → SPACE ∉ m.
Proof. intros Hm Hin. by destruct (is_part_ref_plain m SPACE Hm Hin) as (_ & ? & _). Qed.

Lemma matches_part_ref (len : nat) (s s' : pystr) :
  matches part_ref len s s' ↔ ∃ m, is_part_ref m = true ∧ s = m ++ s'.
Proof.
  unfold part_ref, one_of.
  rewrite !matches_alt, !matches_plus_chr, matches_chr. split.
  - intros [(m & Hm & Hall & ->)|[(c & -> & Hc)|(m & Hm & Hall & ->)]].
    + exists m. split; [|done]. unfold is_part_ref.
      apply truthy_nonempty in Hm. by rewrite Hm, Hall.
    + exists [c]. split; [|done]. unfold is_part_ref. cbn [truthy forallb].
      by rewrite Hc, orb_true_r.
    + exists m. split; [|done]. unfold is_part_ref.
      apply truthy_nonempty in Hm. by rewrite Hm, Hall, orb_true_r.
  - intros (m & Hm & ->). unfold is_part_ref in Hm.
    apply orb_prop in Hm as [[H|H]%orb_prop|H].
    + apply andb_prop in H as [Hne%truthy_nonempty Hall]. left. by exists m.
    + destruct m as [|c [|c' m]]; try done. right. left. by exists c.
    + apply andb_prop in H as [Hne%truthy_nonempty Hall]. right. right.
      by exists m.
Qed.

Lemma matches_spaced_part_ref (len : nat) (s s' : pystr) :
  matches spaced_part_ref len s s'
  ↔ ∃ m, is_part_ref m = true
         ∧ (length s = len ∧ s = m ++ s' ∨ s = SPACE :: m ++ s').
Proof.
  unfold spaced_part_ref. rewrite matches_cat. split.
  - intros (s1 & [[-> Hlen]%matches_bol|(c & -> & ->%N.eqb_eq)%matches_chr]%matches_alt
              & (m & Hm & ->)%matches_part_ref); exists m; eauto.
  - intros (m & Hm & [[Hlen ->]| ->]).
    + exists (m ++ s'). split; [apply matches_alt; left; by apply matches_bol|].
      apply matches_part_ref. eauto.
    + exists (m ++ s'). split.
      * apply matches_alt. right. apply matches_chr. exists SPACE.
        by rewrite N.eqb_refl.
      * apply matches_part_ref. eauto.
Qed.

Lemma is_ref_chain_spec (at_start : bool) (u : pystr) :
  is_ref_chain at_start u = true
  ↔ (∃ rest, u = SPACE :: rest
             ∧ forallb is_part_ref (split_on SPACE rest) = true)
    ∨ (at_start = true ∧ forallb is_part_ref (split_on SPACE u) = true).
Proof.
  unfold is_ref_chain. destruct (split_on SPACE u) as [|p ps] eqn:Hu.
  { by apply split_on_nonempty in Hu. }
  destruct (split_on_inv _ _ _ _ Hu) as (_ & Hcase). split.
  - destruct p as [|c p]; [destruct ps as [|m ms]|].
    + intros [_ [=]]%andb_prop.
    + destruct Hcase as [[[=] _]|(s' & -> & Hs' & _)].
      intros H. left. exists s'. by rewrite Hs'.
    + intros [-> H]%andb_prop. by right.
  - intros [(rest & -> & Hall)|[-> Hall]].
    + rewrite split_on_sep in Hu. injection Hu as <- <-.
      destruct (split_on SPACE rest) as [|m ms] eqn:Hrest; [|done].
      by apply split_on_nonempty in Hrest.
    + destruct p as [|c p]; [|done]. by simpl in Hall.
Qed.

(** A space and then markers parted by spaces is matched by
    [( part_ref)+]. *)
Lemma spaced_chain_matches (len : nat) (ms : list pystr) (m rest : pystr) :
  split_on SPACE rest = m :: ms →
  forallb is_part_ref (m :: ms) = true →
  plus_rel (matches spaced_part_ref len) (SPACE :: rest) [].
Proof.
  revert m rest. induction ms as [|m' ms IH]; intros m rest Hrest Hall;
    simpl in Hall; apply andb_prop in Hall as [Hm Hall];
    destruct (split_on_inv _ _ _ _ Hrest) as (_ & [[Hms ->]|(s' & -> & Hs' & Hms)]);
    try done.
  - apply plus_one, matches_spaced_part_ref. exists m.
    split; [done|]. right. by rewrite app_nil_r.
  - apply (plus_more _ _ (SPACE :: s')).
    + apply matches_spaced_part_ref. exists m. split; [done|]. by right.
    + simpl. rewrite length_app. simpl. lia.
    + by apply (IH m').
Qed.

Lemma spaced_matches_chain (len : nat) (u : pystr) :
  (length u ≤ len)%nat →
  plus_rel (matches spaced_part_ref len) u []
  ↔ is_ref_chain (length u =? len)%nat u = true.
Proof.
  intros Hlen. split.
  - remember [] as e eqn:He. intros Hrel. revert Hlen.
    induction Hrel as [s s' (m & Hm & Hs)%matches_spaced_part_ref
                      |s s1 s' (m & Hm & Hs)%matches_spaced_part_ref Hlt _ IH];
      intros Hlen; subst s'; apply is_ref_chain_spec.
    + rewrite app_nil_r in Hs. destruct Hs as [[Hl ->]| ->].
      * right. apply Nat.eqb_eq in Hl. split; [done|].
        rewrite split_on_absent by by apply is_part_ref_no_space.
        simpl. by rewrite Hm.
      * left. exists m. split; [done|].
        rewrite split_on_absent by by apply is_part_ref_no_space.
        simpl. by rewrite Hm.
    + assert (is_ref_chain false s1 = true) as Hs1.
      { rewrite <- (IH eq_refl) by lia. f_equal. symmetry. apply Nat.eqb_neq. lia. }
      apply is_ref_chain_spec in Hs1 as [(rest & -> & Hall)|[[=] _]].
      destruct Hs as [[Hl ->]| ->].
      * right. apply Nat.eqb_eq in Hl. split; [done|].
        rewrite split_on_app by by apply is_part_ref_no_space.
        simpl. by rewrite Hm, Hall.
      * left. exists (m ++ SPACE :: rest). split; [done|].
        rewrite split_on_app by by apply is_part_ref_no_space.
        simpl. by rewrite Hm, Hall.
  - intros [(rest & -> & Hall)|[Hl%Nat.eqb_eq Hall]]%is_ref_chain_spec.
    + destruct (split_on SPACE rest) as [|m ms] eqn:Hrest.
      { by apply split_on_nonempty in Hrest. }
      by eapply spaced_chain_matches.
    + destruct (split_on SPACE u) as [|m ms] eqn:Hu.
      { by apply split_on_nonempty in Hu. }
      pose proof Hall as Hall'. simpl in Hall'.
      apply andb_prop in Hall' as [Hm Hms].
      destruct (split_on_inv _ _ _ _ Hu) as (_ & [[-> ->]|(s' & -> & Hs' & Hne)]).
      * apply plus_one, matches_spaced_part_ref. exists m.
        split; [done|]. left. by rewrite app_nil_r.
      * apply (plus_more _ _ (SPACE :: s')).
        -- apply matches_spaced_part_ref. exists m. split; [done|]. by left.
        -- rewrite length_app. simpl.
           destruct (is_part_ref_chars m Hm) as [Hmne _].
           destruct m; [done|]. simpl. lia.
        -- destruct ms as [|m' ms]; [done|]. by eapply spaced_chain_matches.
Qed.

(** What [( part_ref)+] matches is not empty. *)
Lemma spaced_matches_consume (len : nat) (u s' : pystr) :
  plus_rel (matches spaced_part_ref len) u s' →
  ∃ pre, pre ≠ [] ∧ u = pre ++ s'.
Proof.
  induction 1 as [s s' (m & Hm & Hs)%matches_spaced_part_ref
                 |s s1 s' (m & Hm & Hs)%matches_spaced_part_ref _ _
                    (pre & Hpre & ->)].
  - destruct Hs as [[_ ->]| ->].
    + exists m. split; [|done]. by apply is_part_ref_chars.
    + by exists (SPACE :: m).
  - destruct Hs as [[_ ->]| ->].
    + exists (m ++ pre). split; [|by rewrite app_assoc].
      intros [_ ?]%app_eq_nil. done.
    + exists (SPACE :: m ++ pre). split; [done|]. simpl. by rewrite app_assoc.
Qed.

Lemma matches_trailing_part_refs (len : nat) (u s' : pystr) :
  matches trailing_part_refs len u s'
  ↔ plus_rel (matches spaced_part_ref len) u s' ∧ (s' = [] ∨ s' = [LF]).
Proof.
  unfold trailing_part_refs. rewrite matches_cat. split.
  - intros (s1 & Hplus%matches_plus & [-> Hs1]%matches_eol). done.
  - intros [Hplus Hs']. exists s'. split; [by apply matches_plus|].
    by apply matches_eol.
Qed.

(** ** Substitution *)

(** When every match of [r] in the subject [t] is non-empty and runs to the
    end, [re.sub(r, '', _)] keeps what comes before the leftmost match. *)
Lemma sub_from_before_match (r : regex) (len : nat) (t : pystr) :
  (∀ u m, u `suffix_of` t → m ∈ ends r len u → snd m = [] ∧ u ≠ []) →
  ∀ u fuel, u `suffix_of` t → (length u < fuel)%nat →
    sub_from fuel r [] len false u = before_match r len u.
Proof.
  intros H.
  assert (ends r len [] = []) as Hnil.
  { destruct (ends r len []) as [|m ms] eqn:He; [done|].
    destruct (H [] m) as [_ ?]; [apply suffix_nil|rewrite He; left|done]. }
  induction u as [|c u IH]; intros fuel Hsuf Hfuel;
    (destruct fuel as [|fuel]; [simpl in Hfuel; lia|]); cbn [sub_from before_match].
  - by rewrite Hnil.
  - destruct (ends r len (c :: u)) as [|[g rest] ms] eqn:He; cbn [head].
    + f_equal. apply IH; [by eapply suffix_cons_l|simpl in Hfuel; lia].
    + destruct (H (c :: u) (g, rest) Hsuf) as [Hrest _]; [rewrite He; left|].
      simpl in Hrest. subst rest. simpl.
      destruct fuel as [|fuel]; [done|]. cbn [sub_from]. by rewrite Hnil.
Qed.

Lemma trailing_part_refs_end (t u : pystr) (m : mstate) :
  trimmed t → u `suffix_of` t →
  m ∈ ends trailing_part_refs (length t) u → snd m = [] ∧ u ≠ [].
Proof.
  intros [_ Hlast] [k ->] Hm. destruct m as [g rest].
  assert (matches trailing_part_refs (length (k ++ u)) u rest) as Hmatch
    by by exists g.
  apply matches_trailing_part_refs in Hmatch as [Hplus Hrest].
  apply spaced_matches_consume in Hplus as (pre & Hpre & ->).
  split; [|by intros [? _]%app_eq_nil].
  destruct Hrest as [->| ->]; [done|]. exfalso.
  specialize (Hlast LF). rewrite !app_assoc, last_snoc in Hlast.
  by specialize (Hlast eq_refl).
Qed.

Lemma before_match_cut_refs (t u : pystr) :
  trimmed t → u `suffix_of` t →
  before_match trailing_part_refs (length t) u = cut_refs (length t) u.
Proof.
  intros Ht. induction u as [|c u IH]; intros Hsuf; [done|].
  cbn [before_match cut_refs].
  pose proof (suffix_length _ _ Hsuf) as Hlen.
  destruct (ends trailing_part_refs (length t) (c :: u)) as [|[g rest] ms] eqn:He.
  - destruct (is_ref_chain _ (c :: u)) eqn:Hchain.
    + apply spaced_matches_chain in Hchain; [|done].
      assert (matches trailing_part_refs (length t) (c :: u) []) as [g Hg].
      { apply matches_trailing_part_refs. eauto. }
      rewrite He in Hg. by apply elem_of_nil in Hg.
    + f_equal. apply IH. by eapply suffix_cons_l.
  - destruct (trailing_part_refs_end t (c :: u) (g, rest) Ht Hsuf) as [Hrest _].
    { rewrite He. left. }
    simpl in Hrest. subst rest.
    assert (matches trailing_part_refs (length t) (c :: u) []) as Hmatch.
    { exists g. rewrite He. left. }
    apply matches_trailing_part_refs in Hmatch as [Hplus _].
    apply spaced_matches_chain in Hplus; [|done]. by rewrite Hplus.
Qed.

(** [remove_trailing_part_refs] cuts the trimmed string at its leftmost
    suffix that is a chain of markers. *)
Lemma remove_trailing_part_refs_cut (s : pystr) :
  remove_trailing_part_refs s = cut_refs (length (strip s)) (strip s).
Proof.
  unfold remove_trailing_part_refs, re_sub.
  rewrite (sub_from_before_match _ _ (strip s)); [| |done|lia].
  - apply before_match_cut_refs; [apply strip_trimmed|done].
  - intros u m. apply trailing_part_refs_end, strip_trimmed.
Qed.

(** ** Chains of markers at the end of a string *)

Lemma cut_refs_no_chain (len : nat) (t : pystr) :
  (∀ u, u ≠ [] → u `suffix_of` t → is_ref_chain (length u =? len)%nat u = false) →
  cut_refs len t = t.
Proof.
  induction t as [|c t IH]; intros H; [done|]. cbn [cut_refs].
  rewrite H by done. f_equal. apply IH. intros u Hu Hsuf.
  apply H; [done|]. by apply suffix_cons_r.
Qed.

Lemma split_on_snoc (sep : N) (u m : pystr) :
  sep ∉ m → split_on sep (u ++ sep :: m) = split_on sep u ++ [m].
Proof.
  intros Hm. induction u as [|c u IH].
  - rewrite app_nil_l, split_on_sep. by rewrite split_on_absent.
  - cbn [app split_on]. rewrite IH. destruct (c =? sep); [done|].
    destruct (split_on sep u) as [|w ws] eqn:Hu; [|done].
    by apply split_on_nonempty in Hu.
Qed.

Lemma split_on_empty_inv (sep : N) (u : pystr) : split_on sep u = [[]] → u = [].
Proof.
  intros H. by destruct (split_on_inv _ _ _ _ H) as (_ & [[_ ->]|(? & _ & _ & ?)]).
Qed.

(** A marker after a space, added at the end, does not change whether a
    non-empty string is a chain. *)
Lemma is_ref_chain_snoc (at_start : bool) (u m : pystr) :
  u ≠ [] → is_part_ref m = true →
  is_ref_chain at_start (u ++ SPACE :: m) = is_ref_chain at_start u.
Proof.
  intros Hu Hm. unfold is_ref_chain.
  rewrite split_on_snoc by by apply is_part_ref_no_space.
  destruct (split_on SPACE u) as [|[|c p] [|m' ms]] eqn:Hsplit; cbn [app].
  - by apply split_on_nonempty in Hsplit.
  - by apply split_on_empty_inv in Hsplit.
  - cbn [forallb]. rewrite forallb_app. cbn [forallb]. by rewrite Hm, !andb_true_r.
  - cbn [forallb]. by rewrite Hm.
  - cbn [forallb]. rewrite forallb_app. cbn [forallb]. by rewrite Hm, !andb_true_r.
Qed.

Lemma ref_chain_snoc (ms : list pystr) (m : pystr) :
  ref_chain (ms ++ [m]) = ref_chain ms ++ SPACE :: m.
Proof.
  unfold ref_chain. rewrite map_app, concat_app. simpl. by rewrite app_nil_r.
Qed.

Lemma is_ref_chain_app (at_start : bool) (u : pystr) (ms : list pystr) :
  u ≠ [] → Forall (λ m, is_part_ref m = true) ms →
  is_ref_chain at_start (u ++ ref_chain ms) = is_ref_chain at_start u.
Proof.
  intros Hu. induction ms as [|m ms IH] using rev_ind; intros Hms.
  - unfold ref_chain. simpl. by rewrite app_nil_r.
  - apply Forall_app in Hms as [Hms Hm]. apply Forall_inv in Hm.
    rewrite ref_chain_snoc, app_assoc, is_ref_chain_snoc; [by apply IH| |done].
    intros [? _]%app_eq_nil. done.
Qed.

Lemma is_ref_chain_ref_chain (at_start : bool) (ms : list pystr) :
  ms ≠ [] → Forall (λ m, is_part_ref m = true) ms →
  is_ref_chain at_start (ref_chain ms) = true.
Proof.
  destruct ms as [|m ms]; [done|]. intros _ [Hm Hms]%Forall_cons.
  change (ref_chain (m :: ms)) with ((SPACE :: m) ++ ref_chain ms).
  rewrite is_ref_chain_app by done. unfold is_ref_chain.
  rewrite split_on_sep, split_on_absent by by apply is_part_ref_no_space.
  simpl. by rewrite Hm.
Qed.

Lemma ref_chain_head (ms : list pystr) :
  ms ≠ [] → ∃ rest, ref_chain ms = SPACE :: rest.
Proof. destruct ms as [|m ms]; [done|]. intros _. by eexists. Qed.

Lemma cut_refs_app (ms : list pystr) (u : pystr) (k : nat) :
  ms ≠ [] → Forall (λ m, is_part_ref m = true) ms →
  cut_refs (k + length (ref_chain ms)) (u ++ ref_chain ms) = cut_refs k u.
Proof.
  intros Hne Hms. induction u as [|c u IH].
  - destruct (ref_chain_head ms Hne) as [rest Hrest]. rewrite app_nil_l.
    pose proof (is_ref_chain_ref_chain
                  (length (ref_chain ms) =? k + length (ref_chain ms))%nat
                  ms Hne Hms) as Hchain.
    rewrite Hrest in *. cbn [cut_refs]. by rewrite Hchain.
  - cbn [app cut_refs]. rewrite IH.
    change (c :: u ++ ref_chain ms) with ((c :: u) ++ ref_chain ms).
    rewrite is_ref_chain_app by done.
    replace (length ((c :: u) ++ ref_chain ms) =? k + length (ref_chain ms))%nat
      with (length (c :: u) =? k)%nat; [done|].
    rewrite length_app.
    destruct (Nat.eqb_spec (length (c :: u)) k);
      destruct (Nat.eqb_spec (length (c :: u) + length (ref_chain ms))
                  (k + length (ref_chain ms))); (done || lia).
Qed.

Lemma ref_chain_last (ms : list pystr) (c : N) :
  Forall (λ m, is_part_ref m = true) ms →
  last (ref_chain ms) = Some c → isspace c = false.
Proof.
  destruct ms as [|m ms _] using rev_ind; [done|].
  intros [_ Hm]%Forall_app. apply Forall_inv in Hm.
  rewrite ref_chain_snoc.
  destruct (is_part_ref_chars m Hm) as [Hne _].
  destruct m as [|c' m' _] using rev_ind; [done|].
  change (SPACE :: m' ++ [c']) with ((SPACE :: m') ++ [c']).
  rewrite app_assoc, last_snoc. intros [= ->].
  apply (is_part_ref_plain (m' ++ [c]) c Hm). set_solver.
Qed.

Lemma trimmed_app_ref_chain (w : pystr) (ms : list pystr) :
  trimmed w → w ≠ [] → Forall (λ m, is_part_ref m = true) ms →
  trimmed (w ++ ref_chain ms).
Proof.
  intros [Hhead Hlast] Hw Hms. split.
  - intros c. destruct w; [done|]. apply Hhead.
  - intros c. destruct (ref_chain ms) as [|c' r] eqn:Hr.
    + rewrite app_nil_r. apply Hlast.
    + rewrite last_app_cons, <- Hr. by apply ref_chain_last.
Qed.

(** Markers after the trimmed, non-empty [w], each after one space, are
    removed together with whatever is removed from [w] itself. *)
Lemma remove_spaced_part_refs (w : pystr) (ms : list pystr) :
  trimmed w → w ≠ [] → Forall (λ m, is_part_ref m = true) ms →
  remove_trailing_part_refs (w ++ ref_chain ms) = remove_trailing_part_refs w.
Proof.
  intros Hw Hne Hms. destruct ms as [|m ms].
  { unfold ref_chain. simpl. by rewrite app_nil_r. }
  rewrite !remove_trailing_part_refs_cut.
  rewrite (strip_id w) by done.
  rewrite (strip_id (w ++ _)) by by apply trimmed_app_ref_chain.
  rewrite length_app. by apply cut_refs_app.
Qed.

(** A trimmed word without a space that is no marker is left as it is. *)
Lemma remove_nothing (w : pystr) :
  trimmed w → SPACE ∉ w → is_part_ref w = false →
  remove_trailing_part_refs w = w.
Proof.
  intros Hw Hsp Hnot. rewrite remove_trailing_part_refs_cut, strip_id by done.
  apply cut_refs_no_chain. intros u Hu [k ->].
  destruct (is_ref_chain _ u) eqn:Hchain; [|done]. exfalso.
  apply is_ref_chain_spec in Hchain as [(rest & -> & _)|[Hlen Hall]].
  - apply Hsp. set_solver.
  - apply Nat.eqb_eq in Hlen. rewrite length_app in Hlen.
    destruct k; [|simpl in Hlen; lia]. simpl in Hnot.
    rewrite split_on_absent in Hall by done. simpl in Hall.
    by rewrite Hnot in Hall.
Qed.

Lemma lstrip_app_keep (w y : pystr) (c : N) :
  isspace c = false → ∃ w', lstrip (w ++ c :: y) = w' ++ c :: y.
Proof.
  intros Hc. induction w as [|c0 w [w' IH]]; simpl.
  - exists []. by rewrite Hc.
  - destruct (isspace c0); [by exists w'|by exists (c0 :: w)].
Qed.

Lemma strip_hyphen_part_ref (w m : pystr) :
  is_part_ref m = true →
  ∃ w', strip (w ++ HYPHEN :: m) = w' ++ HYPHEN :: m.
Proof.
  intros Hm. unfold strip.
  destruct (lstrip_app_keep w m HYPHEN) as [w' ->]; [done|].
  exists w'. apply rstrip_id. intros c.
  destruct (is_part_ref_chars m Hm) as [Hne _].
  destruct m as [|c' m' _] using rev_ind; [done|].
  change (w' ++ HYPHEN :: m' ++ [c']) with (w' ++ (HYPHEN :: m') ++ [c']).
  rewrite !app_assoc, last_snoc. intros [= ->].
  apply (is_part_ref_plain (m' ++ [c]) c Hm). set_solver.
Qed.

Lemma split_on_piece (sep c : N) (s : pystr) :
  c ∈ s → c ≠ sep → ∃ p, p ∈ split_on sep s ∧ c ∈ p.
Proof.
  intros Hc Hne. induction s as [|c0 s IH]; [by apply elem_of_nil in Hc|].
  cbn [split_on]. destruct (split_on sep s) as [|w ws] eqn:Hs.
  { by apply split_on_nonempty in Hs. }
  apply elem_of_cons in Hc as [->|Hc].
  - destruct (N.eqb_spec c0 sep); [done|]. exists (c0 :: w).
    split; apply elem_of_cons; by left.
  - destruct (IH Hc) as (p & Hp & Hcp).
    destruct (c0 =? sep).
    { exists p. split; [|done]. apply elem_of_cons. by right. }
    apply elem_of_cons in Hp as [->|Hp].
    + exists (c0 :: w). split; apply elem_of_cons; [by left|by right].
    + exists p. split; [|done]. apply elem_of_cons. by right.
Qed.

(** A string with a hyphen in it is no chain of markers. *)
Lemma hyphen_no_ref_chain (at_start : bool) (u : pystr) :
  HYPHEN ∈ u → is_ref_chain at_start u = false.
Proof.
  intros Hu. destruct (is_ref_chain at_start u) eqn:Hchain; [|done]. exfalso.
  assert (∀ s, HYPHEN ∈ s → forallb is_part_ref (split_on SPACE s) = true → False)
    as Hno.
  { intros s Hs Hall. destruct (split_on_piece SPACE HYPHEN s Hs) as (p & Hp & Hin).
    { done. }
    eapply forallb_forall in Hall; [|by apply list_elem_of_In].
    by destruct (is_part_ref_plain p HYPHEN Hall Hin) as (_ & _ & ? & _). }
  apply is_ref_chain_spec in Hchain as [(rest & -> & Hall)|[_ Hall]].
  - apply (Hno rest); [|done]. by apply elem_of_cons in Hu as [[=]|?].
  - by apply (Hno u).
Qed.

Lemma suffix_cons_cases (u l : pystr) (c : N) :
  u `suffix_of` c :: l → u = c :: l ∨ u `suffix_of` l.
Proof.
  intros [[|c' k] Hk]; [by left|]. right. injection Hk as _ ->. by exists k.
Qed.

Lemma suffix_app_cases (u w y : pystr) :
  u `suffix_of` w ++ y → (∃ w', u = w' ++ y) ∨ u `suffix_of` y.
Proof.
  induction w as [|c w IH]; simpl; intros Hu; [by right|].
  apply suffix_cons_cases in Hu as [->|Hu]; [left; by exists (c :: w)|by apply IH].
Qed.

(** A marker joined to what precedes it by a hyphen is not removed. *)
Lemma remove_hyphen_part_ref (w m : pystr) :
  is_part_ref m = true →
  remove_trailing_part_refs (w ++ HYPHEN :: m) = strip (w ++ HYPHEN :: m).
Proof.
  intros Hm. rewrite remove_trailing_part_refs_cut.
  destruct (strip_hyphen_part_ref w m Hm) as [w' ->].
  apply cut_refs_no_chain. intros u Hu Hsuf.
  apply suffix_app_cases in Hsuf as [[w'' ->]|Hsuf].
  { apply hyphen_no_ref_chain. set_solver. }
  apply suffix_cons_cases in Hsuf as [->|Hsuf].
  { apply hyphen_no_ref_chain. set_solver. }
  destruct (is_ref_chain _ u) eqn:Hchain; [|done]. exfalso.
  apply is_ref_chain_spec in Hchain as [(rest & -> & _)|[Hlen _]].
  - apply (is_part_ref_no_space m Hm). destruct Hsuf as [k ->]. set_solver.
  - apply Nat.eqb_eq in Hlen. apply suffix_length in Hsuf.
    rewrite length_app in Hlen. simpl in Hlen. lia.
Qed.

(** C5, as the specification states it, fails: the marker ["i"] joined to
    ["ge-reafian"] by a hyphen is not removed. *)
Lemma hyphen_part_ref_stays :
  remove_trailing_part_refs (py "ge-reafian-i") ≠ py "ge-reafian".
Proof. vm_compute. discriminate. Qed.

(** C5, amended: [remove_trailing_part_refs] trims its argument and removes
    from its end one or more reference markers (a run of the letters [ivx],
    a single letter of [abcdefoα], or a run of digits), each of which
    follows one space. Markers that follow the trimmed, non-empty [w] in
    this way go together with whatever is removed from [w]; a trimmed word
    without a space that is no marker stays as it is, so ["ge-reafian i"]
    becomes ["ge-reafian"]; a marker joined by a hyphen is not removed. *)
Theorem part_refs_removed_after_spaces :
  (∀ w ms, trimmed w → w ≠ [] → Forall (λ m, is_part_ref m = true) ms →
     remove_trailing_part_refs (w ++ ref_chain ms) = remove_trailing_part_refs w)
  ∧ (∀ w, trimmed w → SPACE ∉ w → is_part_ref w = false →
       remove_trailing_part_refs w = w)
  ∧ (∀ w m, is_part_ref m = true →
       remove_trailing_part_refs (w ++ HYPHEN :: m) = strip (w ++ HYPHEN :: m))
  ∧ remove_trailing_part_refs (py "ge-reafian i") = py "ge-reafian".
Proof.
  split; [|split; [|split]].
  - apply remove_spaced_part_refs.
  - apply remove_nothing.
  - apply remove_hyphen_part_ref.
  - vm_compute. reflexivity.
Qed.

Lemma trimmed_decide (s : pystr) :
  bool_decide (strip s = s) = true → trimmed s.
Proof. intros H%bool_decide_eq_true. rewrite <- H. apply strip_trimmed. Qed.

Lemma part_refs_removed_after_spaces_witness :
  remove_trailing_part_refs (py "on baec" ++ ref_chain [py "ii"; py "b"; py "12"])
  = remove_trailing_part_refs (py "on baec")
  ∧ remove_trailing_part_refs (py "ge-reafian") = py "ge-reafian"
  ∧ remove_trailing_part_refs (py "ge-reafian" ++ HYPHEN :: py "i")
    = strip (py "ge-reafian" ++ HYPHEN :: py "i").
Proof.
  destruct part_refs_removed_after_spaces as (Hspaces & Hword & Hhyphen & _).
  split; [|split].
  - apply (Hspaces (py "on baec") [py "ii"; py "b"; py "12"]).
    + apply trimmed_decide. vm_compute. reflexivity.
    + vm_compute. discriminate.
    + repeat constructor.
  - apply (Hword (py "ge-reafian")).
    + apply trimmed_decide. vm_compute. reflexivity.
    + apply (bool_decide_unpack _). vm_compute. exact I.
    + vm_compute. reflexivity.
  - apply (Hhyphen (py "ge-reafian") (py "i")). vm_compute. reflexivity.
Defined.

(** ** The headword extractor *)

(** Replacing one-character matches by nothing filters them out. *)
Lemma sub_from_chr (ok : N → bool) (len : nat) (s : pystr) (fuel : nat) :
  (length s < fuel)%nat →
  sub_from fuel (Chr ok) [] len false s = List.filter (λ c, negb (ok c)) s.
Proof.
  revert fuel. induction s as [|c s IH]; intros fuel Hfuel;
    (destruct fuel as [|fuel]; [simpl in Hfuel; lia|]); [done|].
  cbn [sub_from ends List.filter]. destruct (ok c); cbn [head negb].
  - assert ((length s =? length (c :: s))%nat = false) as ->
      by (apply Nat.eqb_neq; simpl; lia).
    simpl in Hfuel. rewrite IH by lia. done.
  - simpl in Hfuel. by rewrite IH by lia.
Qed.

Lemma re_sub_chr (ok : N → bool) (s : pystr) :
  re_sub (Chr ok) [] s = List.filter (λ c, negb (ok c)) s.
Proof. apply sub_from_chr. lia. Qed.

Lemma isascii_map_lower (s : pystr) :
  isascii s = true → isascii (map ascii_lower s) = true.
Proof.
  unfold isascii. rewrite !forallb_forall. intros H c [c0 [<- Hc0]]%in_map_iff.
  apply H in Hc0. apply N.ltb_lt in Hc0. apply N.ltb_lt. unfold ascii_lower.
  destruct (_ && _) eqn:Hup; [|done].
  apply andb_prop in Hup as [_ Hle%N.leb_le]. lia.
Qed.

Section HeadwordProperties.
Context {U : Unicode}.

(** On ASCII text [unaccented_letters] of the lowered string is the
    lowered string without the characters that are not kept. *)
Lemma unaccented_lower_ascii (s : pystr) :
  isascii s = true →
  unaccented_letters (lower s) = List.filter ascii_kept (map ascii_lower s).
Proof.
  intros Hs. unfold unaccented_letters, not_letter.
  rewrite lower_ascii by done.
  pose proof (isascii_map_lower s Hs) as Hlow.
  rewrite nfkd_ascii by done. rewrite re_sub_chr.
  unfold isascii in Hlow. rewrite forallb_forall in Hlow.
  apply filter_ext_in. intros c Hc. rewrite negb_involutive.
  unfold ascii_kept. rewrite isword_ascii; [done|].
  apply N.ltb_lt. by apply Hlow.
Qed.
End HeadwordProperties.

Lemma isascii_split_on (sep : N) (s : pystr) :
  isascii s = true → Forall (λ w, isascii w = true) (split_on sep s).
Proof.
  induction s as [|c s IH]; [by repeat constructor|].
  cbn [isascii forallb]. intros [Hc Hs]%andb_prop. specialize (IH Hs).
  cbn [split_on]. destruct (c =? sep).
  - by constructor.
  - destruct (split_on sep s) as [|w ws]; [by repeat constructor; cbn; rewrite Hc|].
    apply Forall_cons in IH as [Hw Hws]. constructor; [|done].
    cbn [isascii forallb]. by rewrite Hc.
Qed.

(** The headwords of an entry whose bolded start is ASCII text do not
    depend on what the Unicode tables say about other characters. *)
Lemma extract_headwords_ascii (U : Unicode) (e g : pystr) :
  group1 <$> re_match bolded_start e = Some (Some g) →
  isascii g = true →
  extract_headwords (U := U) e = extract_headwords (U := ascii_tables) e.
Proof.
  intros Hg Hascii. unfold extract_headwords.
  destruct (List.find _ HEADWORD_SPECIAL_CASES) as [[pfx hwd]|]; [done|].
  destruct (re_match bolded_start e) as [m|]; simpl in Hg; [|done].
  injection Hg as ->.
  assert (map (λ s, unaccented_letters (U := U) (@lower U s)) (split_on COMMA g)
          = map (λ s, unaccented_letters (U := ascii_tables)
                        (@lower ascii_tables s))
              (split_on COMMA g)) as ->; [|done].
  apply map_ext_Forall. eapply Forall_impl; [by apply isascii_split_on|].
  intros w Hw. cbv beta. by rewrite !unaccented_lower_ascii.
Qed.

(** C3, as the specification states it, fails: for the entry
    ["<B>foo-, -bar</B> text"] the headword list is not [["bar"]]. *)
Lemma leading_hyphen_is_kept :
  ¬ ∃ U : Unicode,
      extract_headwords (U := U) (py "<B>foo-, -bar</B> text") = Ok [py "bar"].
Proof.
  intros [U H]. rewrite (extract_headwords_ascii U _ (py "foo-, -bar")) in H.
  - vm_compute in H. discriminate H.
  - vm_compute. reflexivity.
  - vm_compute. reflexivity.
Qed.

(** C3, amended: the comma list with the pieces ["foo-"] and ["bar-baz"]
    yields [["bar-baz"]], the list with ["foo-bar"] and ["-baz"] yields
    [["foo-bar"]], and the entry ["<B>foo-, -bar</B> text"] yields
    [["-bar"]]: the trailing-hyphen piece ["foo-"], which is not last, is
    dropped, and the surviving piece keeps its hyphen. *)
Theorem hyphen_fragments_dropped (U : Unicode) :
  extract_headwords (py "<B>foo-, bar-baz</B> text") = Ok [py "bar-baz"]
  ∧ extract_headwords (py "<B>foo-bar, -baz</B> text") = Ok [py "foo-bar"]
  ∧ extract_headwords (py "<B>foo-, -bar</B> text") = Ok [py "-bar"].
Proof.
  split; [|split].
  - rewrite (extract_headwords_ascii U _ (py "foo-, bar-baz"));
      vm_compute; reflexivity.
  - rewrite (extract_headwords_ascii U _ (py "foo-bar, -baz"));
      vm_compute; reflexivity.
  - rewrite (extract_headwords_ascii U _ (py "foo-, -bar"));
      vm_compute; reflexivity.
Qed.

(** ** The aggregator *)

Section AggregatorProperties.
Context {U : Unicode}.
Variable fix_entities : pystr → pystr.
Variable ascify : pystr → pystr.

Lemma no_empty_headword (hwds : list pystr) :
  existsb (λ h, negb (truthy h)) hwds = false ↔ [] ∉ hwds.
Proof.
  induction hwds as [|h hwds IH]; simpl.
  - split; [|done]. intros _ H. by apply elem_of_nil in H.
  - rewrite orb_false_iff, IH, not_elem_of_cons. destruct h; simpl.
    + split; [by intros [[=] _]|]. by intros [[] _].
    + split; [by intros [_ ?]|]. by intros [_ ?].
Qed.

(** When an iteration completes. *)
Lemma collect_entry_Ok (m m' : gmap pystr Entry) (e : pystr) :
  collect_entry fix_entities ascify m e = Ok m' ↔
  ∃ first rest,
    extract_headwords (fix_entities e) = Ok (first :: rest)
    ∧ ascify first ≠ [] ∧ ([] ∉ first :: rest)
    ∧ m' = <[ascify first :=
               mkEntry (headwords (get_or_new m (ascify first))
                        ∪ list_to_set (first :: rest))
                       (defns (get_or_new m (ascify first)) ++ [fix_entities e])]> m.
Proof.
  unfold collect_entry.
  destruct (extract_headwords (fix_entities e)) as [[|first rest]|x];
    rewrite ?bind_Ok_l, ?bind_Err_l.
  - split; [done|]. by intros (? & ? & [=] & _).
  - destruct (truthy (ascify first)) eqn:Hk; cbn [negb orb].
    + destruct (existsb (λ h, negb (truthy h)) (first :: rest)) eqn:Hh.
      * split; [done|]. intros (? & ? & [= <- <-] & _ & Hno & _).
        apply no_empty_headword in Hno. congruence.
      * split.
        -- intros [= <-]. exists first, rest. repeat split; try done.
           ++ by apply truthy_nonempty.
           ++ by apply no_empty_headword.
        -- by intros (? & ? & [= <- <-] & _ & _ & ->).
    + split; [done|]. intros (? & ? & [= <- <-] & Hne & _).
      apply truthy_nonempty in Hne. congruence.
  - split; [done|]. by intros (? & ? & [=] & _).
Qed.

(** When an iteration raises, and what. *)
Lemma collect_entry_Err (m : gmap pystr Entry) (e : pystr) (x : exn) :
  collect_entry fix_entities ascify m e = Err x ↔
  extract_headwords (fix_entities e) = Err x
  ∨ (extract_headwords (fix_entities e) = Ok []
     ∧ x = AssertionError (EntryText (fix_entities e)))
  ∨ (∃ first rest,
       extract_headwords (fix_entities e) = Ok (first :: rest)
       ∧ (ascify first = [] ∨ [] ∈ (first :: rest))
       ∧ x = BadNormalization (ascify first) (first :: rest) (fix_entities e)).
Proof.
  unfold collect_entry.
  destruct (extract_headwords (fix_entities e)) as [[|first rest]|x'];
    rewrite ?bind_Ok_l, ?bind_Err_l.
  - split; [intros [= <-]; eauto|].
    intros [[=]|[[_ ->]|(? & ? & [=] & _)]]. done.
  - destruct (truthy (ascify first)) eqn:Hk; cbn [negb orb].
    + destruct (existsb (λ h, negb (truthy h)) (first :: rest)) eqn:Hh.
      * split.
        -- intros [= <-]. right. right. exists first, rest.
           repeat split; try done. right.
           destruct (decide ([] ∈ (first :: rest))) as [|Hno]; [done|].
           apply no_empty_headword in Hno. congruence.
        -- by intros [[=]|[[[=] _]|(? & ? & [= <- <-] & _ & ->)]].
      * split; [done|].
        intros [[=]|[[[=] _]|(? & ? & [= <- <-] & [Hk'|Hin] & _)]].
        -- rewrite Hk' in Hk. done.
        -- apply no_empty_headword in Hh. done.
    + split.
      * intros [= <-]. right. right. exists first, rest.
        repeat split; try done. left. by destruct (ascify first).
      * by intros [[=]|[[[=] _]|(? & ? & [= <- <-] & _ & ->)]].
  - split; [intros [= <-]; eauto|].
    intros [[= <-]|[[[=] _]|(? & ? & [=] & _)]]. done.
Qed.

Lemma collect_entry_nonempty (m : gmap pystr Entry) (e : pystr)
    (m' : gmap pystr Entry) :
  keys_and_spellings_nonempty m → collect_entry fix_entities ascify m e = Ok m' →
  keys_and_spellings_nonempty m'.
Proof.
  intros Hm (first & rest & _ & Hk & Hno & ->)%collect_entry_Ok k r.
  destruct (decide (ascify first = k)) as [<-|Hne].
  - rewrite lookup_insert_eq. intros [= <-]. split; [done|]. cbn [headwords].
    rewrite not_elem_of_union. split; [|set_solver].
    unfold get_or_new. destruct (m !! ascify first) as [old|] eqn:Hold; simpl.
    + by apply (Hm _ _ Hold).
    + apply not_elem_of_empty.
  - rewrite lookup_insert_ne by done. apply Hm.
Qed.

Lemma get_or_new_insert_eq (m : gmap pystr Entry) (k : pystr) (r : Entry) :
  get_or_new (<[k := r]> m) k = r.
Proof. unfold get_or_new. by rewrite lookup_insert_eq. Qed.

Lemma get_or_new_insert_ne (m : gmap pystr Entry) (k k' : pystr) (r : Entry) :
  k ≠ k' → get_or_new (<[k := r]> m) k' = get_or_new m k'.
Proof. intros H. unfold get_or_new. by rewrite lookup_insert_ne. Qed.

(** What the loop has put under the key [k]: the entries of that key, in
    the order of the stream, and the headwords extracted from them. *)
Lemma collect_lookup (es : list pystr) (m0 m : gmap pystr Entry) (k : pystr) :
  for_each (collect_entry fix_entities ascify) m0 es = Ok m →
  defns (get_or_new m k)
  = defns (get_or_new m0 k)
    ++ map fix_entities (filter (λ e, key_of fix_entities ascify e = Some k) es)
  ∧ (∀ e hwds h, e ∈ es → key_of fix_entities ascify e = Some k →
       extract_headwords (fix_entities e) = Ok hwds → h ∈ hwds →
       h ∈ headwords (get_or_new m k))
  ∧ (∀ h, h ∈ headwords (get_or_new m0 k) → h ∈ headwords (get_or_new m k))
  ∧ (is_Some (m0 !! k) ∨ (∃ e, e ∈ es ∧ key_of fix_entities ascify e = Some k) → is_Some (m !! k)).
Proof.
  revert m0. induction es as [|e es IH]; intros m0; cbn [for_each].
  - intros [= <-]. rewrite filter_nil. simpl. rewrite app_nil_r.
    repeat split; try done.
    + intros e hwds h He. by apply elem_of_nil in He.
    + intros [H|(e & He & _)]; [done|]. by apply elem_of_nil in He.
  - intros (m1 & Hstep & Hrest)%bind_Ok.
    destruct (IH m1 Hrest) as (Hd & Hh & Hold & Hsome). clear IH.
    apply collect_entry_Ok in Hstep as (first & rest & Hex & Hk & Hno & ->).
    assert (key_of fix_entities ascify e = Some (ascify first)) as Hkey.
    { unfold key_of. by rewrite Hex. }
    destruct (decide (ascify first = k)) as [<-|Hne].
    + (* this entry has the key [k] *)
      rewrite get_or_new_insert_eq in Hd, Hold.
      rewrite lookup_insert_eq in Hsome.
      cbn [headwords defns] in Hd, Hold.
      rewrite filter_cons_True by done. cbn [map].
      split; [by rewrite Hd, <- app_assoc|]. split; [|split].
      * intros e' hwds h [->|He']%elem_of_cons Hk' Hex' Hin.
        -- apply Hold. rewrite elem_of_union, elem_of_list_to_set.
           right. congruence.
        -- by eapply Hh.
      * intros h Hin. apply Hold. rewrite elem_of_union. by left.
      * intros _. apply Hsome. left. by eexists.
    + (* this entry has another key *)
      rewrite get_or_new_insert_ne in Hd, Hold by done.
      rewrite lookup_insert_ne in Hsome by done.
      rewrite filter_cons_False by congruence.
      split; [done|]. split; [|split].
      * intros e' hwds h [->|He']%elem_of_cons Hk' Hex' Hin; [congruence|].
        by eapply Hh.
      * done.
      * intros [H|(e' & [->|He']%elem_of_cons & Hk')].
        -- apply Hsome. by left.
        -- congruence.
        -- apply Hsome. right. eauto.
Qed.

(** C7: when [collect_entries] completes and two entry blocks of the
    stream, the first before the second, have first headwords with the
    same canonical key, the mapping holds one record under that key; its
    headword set contains every headword extracted from either entry, and
    its definition list contains both entity-normalized blocks, the first
    before the second. *)
Theorem collect_entries_groups_by_key (entries : list pystr)
    (m : gmap pystr Entry) (i j : nat) (e1 e2 : pystr)
    (hw1 hw2 : list pystr) (k : pystr) :
  collect_entries fix_entities ascify entries = Ok m →
  (i < j)%nat → entries !! i = Some e1 → entries !! j = Some e2 →
  extract_headwords (fix_entities e1) = Ok hw1 →
  extract_headwords (fix_entities e2) = Ok hw2 →
  ascify <$> head hw1 = Some k →
  ascify <$> head hw2 = Some k →
  ∃ r, m !! k = Some r
       ∧ (∀ h, h ∈ hw1 ∨ h ∈ hw2 → h ∈ headwords r)
       ∧ ∃ l1 l2 l3,
           defns r = l1 ++ fix_entities e1 :: l2 ++ fix_entities e2 :: l3.
Proof.
  intros Hrun Hij Hi Hj Hex1 Hex2 Hk1 Hk2.
  assert (key_of fix_entities ascify e1 = Some k) as Hkey1.
  { unfold key_of. rewrite Hex1. by destruct hw1. }
  assert (key_of fix_entities ascify e2 = Some k) as Hkey2.
  { unfold key_of. rewrite Hex2. by destruct hw2. }
  destruct (collect_lookup entries ∅ m k Hrun) as (Hd & Hh & _ & Hsome).
  destruct Hsome as [r Hr].
  { right. exists e1. split; [|done]. by eapply list_elem_of_lookup_2. }
  assert (get_or_new m k = r) as Hget by (unfold get_or_new; by rewrite Hr).
  rewrite Hget in Hd, Hh. exists r. split; [done|]. split.
  - intros h [Hin|Hin].
    + eapply (Hh e1); try done. by eapply list_elem_of_lookup_2.
    + eapply (Hh e2); try done. by eapply list_elem_of_lookup_2.
  - rewrite Hd. unfold get_or_new. rewrite lookup_empty. cbn [default defns app].
    rewrite <- (take_drop_middle entries i e1 Hi).
    assert (drop (S i) entries !! (j - S i)%nat = Some e2) as Hj'.
    { rewrite lookup_drop. rewrite <- Hj. f_equal. lia. }
    rewrite <- (take_drop_middle _ _ e2 Hj').
    rewrite filter_app, filter_cons_True by done.
    rewrite filter_app, filter_cons_True by done.
    rewrite map_app. cbn [map]. rewrite map_app. cbn [map]. eauto.
Qed.

(** C8, amended: [collect_entries] raises its bad-normalization error on
    an entry exactly when the extraction returned at least one headword
    and the canonical key or some extracted headword is the empty string;
    an entry whose extraction fails, or returns no headword, raises an
    assertion error instead. Each of these errors ends the run, so the
    entry is added to no mapping; and in every mapping [collect_entries]
    returns, no key and no headword spelling is the empty string. *)
Theorem collect_entries_errors :
  (∀ m e x,
     collect_entry fix_entities ascify m e = Err x ↔
     extract_headwords (fix_entities e) = Err x
     ∨ (extract_headwords (fix_entities e) = Ok []
        ∧ x = AssertionError (EntryText (fix_entities e)))
     ∨ (∃ first rest,
          extract_headwords (fix_entities e) = Ok (first :: rest)
          ∧ (ascify first = [] ∨ [] ∈ (first :: rest))
          ∧ x = BadNormalization (ascify first) (first :: rest)
                  (fix_entities e)))
  ∧ (∀ pre m e rest x,
       for_each (collect_entry fix_entities ascify) ∅ pre = Ok m →
       collect_entry fix_entities ascify m e = Err x →
       collect_entries fix_entities ascify (pre ++ e :: rest) = Err x)
  ∧ (∀ entries m,
       collect_entries fix_entities ascify entries = Ok m →
       ∀ k r, m !! k = Some r → k ≠ [] ∧ [] ∉ headwords r).
Proof.
  split; [|split].
  - apply collect_entry_Err.
  - intros pre m e rest x Hpre He. unfold collect_entries.
    rewrite for_each_app, Hpre, bind_Ok_l. cbn [for_each]. by rewrite He.
  - intros entries m Hrun.
    apply (for_each_invariant (collect_entry fix_entities ascify)
             keys_and_spellings_nonempty) with (xs := entries) (acc := ∅);
      [|done|done].
    intros acc e acc'. apply collect_entry_nonempty.
Qed.

End AggregatorProperties.

Lemma collect_entries_groups_by_key_witness :
  ∃ r, ({[ py "foo" :=
            mkEntry {[ py "foo"; py "bar" ]} [py "<B>foo</B> x"; py "<B>Foo, bar</B> y"]
        ]} : gmap pystr Entry) !! py "foo" = Some r
       ∧ (∀ h, h ∈ [py "foo"] ∨ h ∈ [py "foo"; py "bar"] → h ∈ headwords r)
       ∧ ∃ l1 l2 l3, defns r = l1 ++ py "<B>foo</B> x" :: l2 ++ py "<B>Foo, bar</B> y" :: l3.
Proof.
  apply (collect_entries_groups_by_key (U := ascii_tables) (λ e, e) (λ h, h)
           [py "<B>foo</B> x"; py "<B>Foo, bar</B> y"] _ 0 1
           (py "<B>foo</B> x") (py "<B>Foo, bar</B> y"));
    first [ vm_compute; reflexivity | lia ].
Defined.

(** C8, as the specification states it, fails: the entry ["<B>i</B> x"]
    yields no headword at all, hence no empty key and no empty headword, and
    [collect_entries] raises an assertion error on it all the same. *)
Lemma fatal_without_empty_key_or_headword :
  (∀ U : Unicode, extract_headwords (U := U) (py "<B>i</B> x") = Ok [])
  ∧ (∀ U : Unicode,
       collect_entries (U := U) (λ e, e) (λ h, h) [py "<B>i</B> x"]
       = Err (AssertionError (EntryText (py "<B>i</B> x")))).
Proof.
  assert (∀ U : Unicode, extract_headwords (U := U) (py "<B>i</B> x") = Ok [])
    as Hex.
  { intros U. rewrite (extract_headwords_ascii U _ (py "i"));
      vm_compute; reflexivity. }
  split; [done|]. intros U.
  unfold collect_entries, collect_entry. cbn [for_each]. by rewrite Hex.
Qed.

Lemma collect_entries_errors_witness :
  (collect_entry (U := ascii_tables) (λ e, e) (λ h, h) ∅ (py "<B>i</B> x")
   = Err (AssertionError (EntryText (py "<B>i</B> x")))
   ↔ extract_headwords (U := ascii_tables) (py "<B>i</B> x")
     = Err (AssertionError (EntryText (py "<B>i</B> x")))
     ∨ (extract_headwords (U := ascii_tables) (py "<B>i</B> x") = Ok []
        ∧ AssertionError (EntryText (py "<B>i</B> x"))
          = AssertionError (EntryText (py "<B>i</B> x")))
     ∨ (∃ first rest,
          extract_headwords (U := ascii_tables) (py "<B>i</B> x")
          = Ok (first :: rest)
          ∧ (first = [] ∨ [] ∈ (first :: rest))
          ∧ AssertionError (EntryText (py "<B>i</B> x"))
            = BadNormalization first (first :: rest) (py "<B>i</B> x")))
  ∧ collect_entries (U := ascii_tables) (λ e, e) (λ h, h)
      ([py "<B>foo</B> x"] ++ py "<B>i</B> x" :: [py "<B>bar</B> y"])
    = Err (AssertionError (EntryText (py "<B>i</B> x")))
  ∧ (py "foo" ≠ [] ∧ [] ∉ headwords (mkEntry {[ py "foo" ]} [py "<B>foo</B> x"])).
Proof.
  destruct (collect_entries_errors (U := ascii_tables) (λ e, e) (λ h, h))
    as (Hiff & Hstop & Hkeys).
  split; [|split].
  - apply (Hiff ∅ (py "<B>i</B> x")).
  - apply (Hstop [py "<B>foo</B> x"]
             ({[ py "foo" := mkEntry {[ py "foo" ]} [py "<B>foo</B> x"] ]}
              : gmap pystr Entry));
      vm_compute; reflexivity.
  - apply (Hkeys [py "<B>foo</B> x"]
             ({[ py "foo" := mkEntry {[ py "foo" ]} [py "<B>foo</B> x"] ]}
              : gmap pystr Entry));
      vm_compute; reflexivity.
Defined.

(** * Further properties of the segmenter *)

Lemma reachable_well_shaped (pre : list pystr) (v : locals) :
  for_each read_line initial pre = Ok v → well_shaped pre v.
Proof.
  intros H. apply (for_each_well_shaped pre [] initial v); [|done].
  split; [constructor|]. split; [by intros []|done].
Qed.

(** X1: every block is a bolded line followed by continuation lines, all taken
    from the input in their order, each trimmed, each continuation line with
    a line feed after it; in particular every block starts with the bold
    marker. *)
Theorem read_entries_blocks_are_rendered_lines (in_file es : list pystr)
    (b : pystr) :
  read_entries in_file = Ok es → b ∈ es →
  startswith bold_open b = true
  ∧ ∃ start conts,
      sublist (start :: conts) in_file
      ∧ startswith bold_open (strip start) = true
      ∧ b = strip start ++ concat (map (λ l, strip l ++ nl) conts).
Proof.
  intros Hrun Hb.
  pose proof (read_entries_block_shape in_file es Hrun b Hb) as Hm.
  split; [by eapply made_of_starts_bold|].
  destruct Hm as (start & conts & Hsub & Hbold & ->). by exists start, conts.
Qed.

Lemma read_entries_blocks_are_rendered_lines_witness :
  startswith bold_open (py "<B>a</B>x" ++ nl) = true
  ∧ ∃ start conts,
      sublist (start :: conts) [py "intro"; py " <B>a</B>"; py ""; py "x "]
      ∧ startswith bold_open (strip start) = true
      ∧ py "<B>a</B>x" ++ nl
        = strip start ++ concat (map (λ l, strip l ++ nl) conts).
Proof.
  apply (read_entries_blocks_are_rendered_lines
           [py "intro"; py " <B>a</B>"; py ""; py "x "]
           [py "<B>a</B>x" ++ nl]).
  - vm_compute. reflexivity.
  - apply (bool_decide_unpack _). vm_compute. exact I.
Defined.

(** A line that does not start with the bold marker leaves the state
    [INTRO] as it is. *)
Lemma read_line_intro (v : locals) (raw : pystr) :
  state v = S.INTRO → startswith bold_open (strip raw) = false →
  read_line v raw = Ok (Locals S.INTRO (partial v) (entries v) (N.succ (n v))).
Proof. intros Hs Hb. unfold read_line. by rewrite Hb, Hs. Qed.

(** X2: before the first bolded line every line is discarded, whatever it is (a
    page header too): lines none of which starts with the bold marker leave
    the machine in [INTRO] with nothing accumulated, and [read_entries]
    returns the empty list without an error. *)
Theorem read_entries_without_bold_line (in_file : list pystr) :
  Forall (λ l, startswith bold_open (strip l) = false) in_file →
  for_each read_line initial in_file
  = Ok (Locals S.INTRO [] [] (N.of_nat (length in_file)))
  ∧ read_entries in_file = Ok [].
Proof.
  intros Hall.
  assert (∀ k, for_each read_line (Locals S.INTRO [] [] k) in_file
               = Ok (Locals S.INTRO [] [] (k + N.of_nat (length in_file))))
    as Hrun.
  { induction Hall as [|l ls Hl _ IH]; intros k; cbn [for_each].
    - by rewrite N.add_0_r.
    - rewrite read_line_intro by done. rewrite bind_Ok_l. cbn [partial entries n].
      rewrite IH. do 2 f_equal. cbn [length]. lia. }
  specialize (Hrun 0). rewrite N.add_0_l in Hrun. fold initial in Hrun.
  split; [done|]. unfold read_entries. by rewrite Hrun.
Qed.

Lemma read_entries_without_bold_line_witness :
  for_each read_line initial [py "Preface"; py "<HEADER>pg</HEADER>"; py ""]
  = Ok (Locals S.INTRO [] [] (N.of_nat 3))
  ∧ read_entries [py "Preface"; py "<HEADER>pg</HEADER>"; py ""] = Ok [].
Proof.
  apply (read_entries_without_bold_line
           [py "Preface"; py "<HEADER>pg</HEADER>"; py ""]).
  repeat constructor.
Defined.

Lemma read_line_counts_start (v v' : locals) (raw : pystr) :
  read_line v raw = Ok v' →
  length (finish v')
  = (length (finish v) + if starts_entry (N.succ (n v)) raw then 1 else 0)%nat.
Proof.
  intros H. unfold starts_entry, finish.
  read_line_cases H; cbn [partial entries].
  - apply andb_prop in Heqb as [Hb _].
    assert (truthy (strip raw) = true) as ->.
    { apply truthy_nonempty. by eapply (startswith_nonempty bold_open). }
    rewrite length_app. cbn [length].
    destruct (truthy (partial v)); rewrite ?length_app; cbn [length]; lia.
  - lia.
  - lia.
  - lia.
  - lia.
  - assert (truthy (partial v ++ strip raw ++ nl) = true) as ->.
    { destruct (partial v); [done|done]. }
    rewrite H0, !length_app. cbn [length]. lia.
Qed.

(** Over a run of lines, the blocks emitted or open grow by the number of
    lines that start an entry. *)
Lemma for_each_counts_starts (ls : list pystr) (v0 v1 : locals) :
  for_each read_line v0 ls = Ok v1 →
  length (finish v1) = (length (finish v0) + count_starts (n v0) ls)%nat.
Proof.
  revert v0 v1. induction ls as [|l ls IH]; intros v0 v1; cbn [for_each count_starts].
  - intros [= <-]. lia.
  - intros (mid & Hl & Hls)%bind_Ok.
    rewrite (IH _ _ Hls), (read_line_counts_start _ _ _ Hl).
    rewrite (read_line_counts _ _ _ Hl). lia.
Qed.

(** X3: when [read_entries] completes, it returns as many blocks as there are
    lines that start with the bold marker at an ordinal outside
    [NOT_AN_ENTRY]: every such line opens exactly one entry, and nothing
    else does. *)
Theorem read_entries_one_block_per_bold_line (in_file es : list pystr) :
  read_entries in_file = Ok es → length es = count_starts 0 in_file.
Proof.
  unfold read_entries. intros (v & Hloop & [= <-])%bind_Ok.
  by rewrite (for_each_counts_starts _ _ _ Hloop).
Qed.

Lemma read_entries_one_block_per_bold_line_witness :
  length [ py "<B>word,</B> text1"; py "<B>word2,</B> text2more text2" ++ nl ]
  = count_starts 0 scenario_with_break.
Proof.
  apply (read_entries_one_block_per_bold_line scenario_with_break).
  vm_compute. reflexivity.
Defined.

Lemma startswith_two (a b : N) (pfx line : pystr) :
  startswith (a :: b :: pfx) line = true → ∃ rest, line = a :: b :: rest.
Proof.
  destruct line as [|x [|y rest]]; cbn [startswith].
  - done.
  - intros [_ [=]]%andb_prop.
  - intros [->%N.eqb_eq [->%N.eqb_eq _]%andb_prop]%andb_prop. by exists rest.
Qed.

Lemma page_header_not_bold (line : pystr) :
  is_page_header line = true → startswith bold_open line = false ∧ line ≠ [].
Proof.
  unfold is_page_header.
  intros [[H|H]%orb_prop|H]%orb_prop;
    apply startswith_two in H as [rest ->]; by vm_compute.
Qed.

(** X4: what a page header line does in each state: it is discarded in [INTRO],
    it moves [BREAK] and [PAGE_BREAK] to [PAGE_BREAK] and is discarded, and
    in [ENTRY] (a header that follows entry text with no blank line in
    between) it raises an assertion error without a message. The open entry
    and the emitted blocks are never touched. *)
Theorem page_header_line (v : locals) (raw : pystr) :
  is_page_header (strip raw) = true →
  read_line v raw
  = match state v with
    | S.INTRO => Ok (Locals S.INTRO (partial v) (entries v) (N.succ (n v)))
    | S.ENTRY => Err (AssertionError NoMessage)
    | S.BREAK | S.PAGE_BREAK =>
        Ok (Locals S.PAGE_BREAK (partial v) (entries v) (N.succ (n v)))
    end.
Proof.
  intros Hh. destruct (page_header_not_bold _ Hh) as [Hb Hne%truthy_nonempty].
  unfold read_line. rewrite Hb, Hh, Hne. by destruct (state v).
Qed.

Lemma page_header_line_witness :
  read_line (Locals S.ENTRY (py "<B>a</B>") [] 1) (py " <PAGE NUM 12> ")
  = match state (Locals S.ENTRY (py "<B>a</B>") [] 1) with
    | S.INTRO =>
        Ok (Locals S.INTRO (partial (Locals S.ENTRY (py "<B>a</B>") [] 1))
              (entries (Locals S.ENTRY (py "<B>a</B>") [] 1))
              (N.succ (n (Locals S.ENTRY (py "<B>a</B>") [] 1))))
    | S.ENTRY => Err (AssertionError NoMessage)
    | S.BREAK | S.PAGE_BREAK =>
        Ok (Locals S.PAGE_BREAK (partial (Locals S.ENTRY (py "<B>a</B>") [] 1))
              (entries (Locals S.ENTRY (py "<B>a</B>") [] 1))
              (N.succ (n (Locals S.ENTRY (py "<B>a</B>") [] 1))))
    end.
Proof.
  apply (page_header_line (Locals S.ENTRY (py "<B>a</B>") [] 1)
           (py " <PAGE NUM 12> ")).
  vm_compute. reflexivity.
Defined.

(** X5: in a run of [read_entries], once an entry is open, a line of ordinary
    text (not blank, no page header, and either not bolded or at an ordinal
    of [NOT_AN_ENTRY]) never raises: trimmed and followed by a line feed, it
    is appended to the open entry, whether the state was [ENTRY], [BREAK] or
    [PAGE_BREAK], and the state becomes [ENTRY]. *)
Theorem text_line_continues_entry (pre : list pystr) (v : locals) (raw : pystr) :
  for_each read_line initial pre = Ok v →
  state v ≠ S.INTRO →
  strip raw ≠ [] →
  is_page_header (strip raw) = false →
  startswith bold_open (strip raw) = false ∨ N.succ (n v) ∈ NOT_AN_ENTRY →
  read_line v raw
  = Ok (Locals S.ENTRY (partial v ++ strip raw ++ nl) (entries v) (N.succ (n v))).
Proof.
  intros Hpre Hs Hne%truthy_nonempty Hh Hbold.
  pose proof (reachable_entry_open pre v Hpre Hs) as Hp%truthy_nonempty.
  unfold read_line. rewrite Hne, Hh, Hp.
  assert (startswith bold_open (strip raw)
          && negb (bool_decide (N.succ (n v) ∈ NOT_AN_ENTRY)) = false) as ->.
  { destruct Hbold as [->|Hin]; [done|].
    by rewrite (bool_decide_eq_true_2 _ Hin), andb_false_r. }
  assert (bool_decide (N.succ (n v) ∈ NOT_AN_ENTRY)
          || negb (startswith bold_open (strip raw)) = true) as Hlast.
  { destruct Hbold as [->|Hin]; [by rewrite orb_true_r|].
    by rewrite (bool_decide_eq_true_2 _ Hin). }
  rewrite Hlast. by destruct (state v).
Qed.

Lemma text_line_continues_entry_witness :
  read_line (Locals S.PAGE_BREAK (py "<B>a</B>") [] 3) (py " more text ")
  = Ok (Locals S.ENTRY (py "<B>a</B>" ++ strip (py " more text ") ++ nl) [] 4).
Proof.
  apply (text_line_continues_entry
           [py "<B>a</B>"; py ""; py "<HEADER>x"]
           (Locals S.PAGE_BREAK (py "<B>a</B>") [] 3) (py " more text ")).
  - vm_compute. reflexivity.
  - discriminate.
  - vm_compute. discriminate.
  - vm_compute. reflexivity.
  - left. vm_compute. reflexivity.
Defined.

(** X6: in a run of [read_entries], a bolded line at an ordinal outside
    [NOT_AN_ENTRY] never raises when the state is [INTRO], [BREAK] or
    [PAGE_BREAK], nor in [ENTRY] at an ordinal of [ALWAYS_AN_ENTRY]: the open
    entry, if there is one, is added to the output as it stands, and the
    trimmed line opens the next entry. *)
Theorem bold_line_opens_entry (pre : list pystr) (v : locals) (raw : pystr) :
  for_each read_line initial pre = Ok v →
  startswith bold_open (strip raw) = true →
  N.succ (n v) ∉ NOT_AN_ENTRY →
  state v ≠ S.ENTRY ∨ N.succ (n v) ∈ ALWAYS_AN_ENTRY →
  read_line v raw = Ok (Locals S.ENTRY (strip raw) (finish v) (N.succ (n v))).
Proof.
  intros Hpre Hb Hnot Hok.
  destruct (reachable_well_shaped pre v Hpre) as (_ & _ & Hintro).
  unfold read_line, finish.
  rewrite Hb, (bool_decide_eq_false_2 _ Hnot). cbn [negb andb].
  destruct (state v) eqn:Hs; cbn.
  - by rewrite Hintro.
  - destruct Hok as [?|Hin]; [done|].
    by rewrite (bool_decide_eq_true_2 _ Hin).
  - done.
  - done.
Qed.

Lemma bold_line_opens_entry_witness :
  read_line (Locals S.BREAK (py "<B>a</B>") [] 2) (py "<B>b</B>")
  = Ok (Locals S.ENTRY (strip (py "<B>b</B>"))
          (finish (Locals S.BREAK (py "<B>a</B>") [] 2)) 3).
Proof.
  apply (bold_line_opens_entry [py "<B>a</B>"; py ""]
           (Locals S.BREAK (py "<B>a</B>") [] 2) (py "<B>b</B>")).
  - vm_compute. reflexivity.
  - vm_compute. reflexivity.
  - vm_compute. intros H. discriminate H.
  - left. discriminate.
Defined.

Lemma read_line_entries_prefix (v v' : locals) (raw : pystr) :
  read_line v raw = Ok v' → entries v `prefix_of` entries v'.
Proof.
  intros H. read_line_cases H; cbn [entries]; try done.
  destruct (truthy (partial v)); [by apply prefix_app_r|done].
Qed.

Lemma for_each_entries_prefix (ls : list pystr) (v v' : locals) :
  for_each read_line v ls = Ok v' → entries v `prefix_of` entries v'.
Proof.
  revert v. induction ls as [|l ls IH]; cbn [for_each]; intros v.
  - by intros [= <-].
  - intros (mid & Hl%read_line_entries_prefix & Hls%IH)%bind_Ok.
    by etrans.
Qed.

(** X7: a block, once added to the output, is never changed or removed by the
    lines read after it: the blocks emitted after the lines [pre] are a
    prefix of the list [read_entries] returns for [pre ++ more]. *)
Theorem emitted_blocks_are_final (pre more : list pystr) (v : locals)
    (es : list pystr) :
  for_each read_line initial pre = Ok v →
  read_entries (pre ++ more) = Ok es →
  entries v `prefix_of` es.
Proof.
  intros Hpre. unfold read_entries. rewrite for_each_app, Hpre, bind_Ok_l.
  intros (v' & Hmore%for_each_entries_prefix & [= <-])%bind_Ok.
  etrans; [done|]. unfold finish.
  destruct (truthy (partial v')); [by apply prefix_app_r|done].
Qed.

Lemma emitted_blocks_are_final_witness :
  entries (Locals S.ENTRY (py "<B>b</B>") [py "<B>a</B>"] 3)
  `prefix_of` [py "<B>a</B>"; py "<B>b</B>x" ++ nl; py "<B>c</B>"].
Proof.
  apply (emitted_blocks_are_final
           [py "<B>a</B>"; py ""; py "<B>b</B>"]
           [py "x"; py ""; py "<B>c</B>"]
           (Locals S.ENTRY (py "<B>b</B>") [py "<B>a</B>"] 3));
    vm_compute; reflexivity.
Defined.

Lemma read_line_trims (v : locals) (raw raw' : pystr) :
  strip raw = strip raw' → read_line v raw = read_line v raw'.
Proof. intros H. unfold read_line. by rewrite H. Qed.

(** X8: only the trimmed text of each line matters: two inputs whose lines agree
    after trimming (leading and trailing white space, the line terminator
    included) give the same result, error or entry list. *)
Theorem read_entries_ignores_outer_whitespace (ls ls' : list pystr) :
  map strip ls = map strip ls' → read_entries ls = read_entries ls'.
Proof.
  intros Hmap. unfold read_entries. f_equal. generalize initial.
  revert ls' Hmap. induction ls as [|l ls IH]; intros [|l' ls'] Hmap v;
    try done; cbn [for_each].
  injection Hmap as Hl Hls. rewrite (read_line_trims v l l' Hl).
  destruct (read_line v l') as [mid|x]; [|done].
  rewrite !bind_Ok_l. by apply IH.
Qed.

Lemma read_entries_ignores_outer_whitespace_witness :
  read_entries [py "  <B>a</B> x" ++ nl; nl; py "more " ++ nl]
  = read_entries [py "<B>a</B> x"; []; py "more"].
Proof.
  apply (read_entries_ignores_outer_whitespace
           [py "  <B>a</B> x" ++ nl; nl; py "more " ++ nl]
           [py "<B>a</B> x"; []; py "more"]).
  vm_compute. reflexivity.
Defined.

(** ** When the segmenter raises *)

(** A loop raises exactly when its body raises on some element, after the
    elements before it went through. *)
Lemma for_each_Err {A X : Type} (body : A → X → result A) (acc : A)
    (xs : list X) (x : exn) :
  for_each body acc xs = Err x
  ↔ ∃ pre y post acc',
      xs = pre ++ y :: post ∧ for_each body acc pre = Ok acc'
      ∧ body acc' y = Err x.
Proof.
  revert acc. induction xs as [|a xs IH]; intros acc; cbn [for_each].
  - split; [done|]. intros (pre & y & post & acc' & Hxs & _).
    by destruct pre.
  - destruct (body acc a) as [acc1|x'] eqn:Ha; rewrite ?bind_Ok_l, ?bind_Err_l.
    + rewrite IH. split.
      * intros (pre & y & post & acc' & -> & Hpre & Hy).
        exists (a :: pre), y, post, acc'. split; [done|]. split; [|done].
        cbn [for_each]. by rewrite Ha.
      * intros (pre & y & post & acc' & Hxs & Hpre & Hy).
        destruct pre as [|a' pre]; cbn [app for_each] in Hxs, Hpre.
        -- injection Hxs as <- <-. injection Hpre as <-. congruence.
        -- injection Hxs as <- ->. rewrite Ha, bind_Ok_l in Hpre.
           by exists pre, y, post, acc'.
    + split.
      * intros [= <-]. by exists [], a, xs, acc.
      * intros (pre & y & post & acc' & Hxs & Hpre & Hy).
        destruct pre as [|a' pre]; cbn [app for_each] in Hxs, Hpre.
        -- injection Hxs as <- <-. injection Hpre as <-. congruence.
        -- injection Hxs as <- ->. by rewrite Ha in Hpre.
Qed.

(** In a run of [read_entries] a line raises in the state [ENTRY] only: when
    it starts an entry at an ordinal that is not in [ALWAYS_AN_ENTRY], or
    when it is a page header. *)
Lemma read_line_Err (pre : list pystr) (v : locals) (raw : pystr) (x : exn) :
  for_each read_line initial pre = Ok v →
  read_line v raw = Err x
  ↔ state v = S.ENTRY
    ∧ (starts_entry (N.succ (n v)) raw = true
       ∧ (N.succ (n v) ∉ ALWAYS_AN_ENTRY)
       ∧ x = AssertionError (StateOrdinal S.ENTRY (N.succ (n v)))
       ∨ is_page_header (strip raw) = true ∧ x = AssertionError NoMessage).
Proof.
  intros Hpre.
  destruct (reachable_well_shaped pre v Hpre) as (_ & _ & Hintro).
  assert (state v ≠ S.INTRO → truthy (partial v) = true) as Hopen.
  { intros Hs. by apply truthy_nonempty, (reachable_entry_open pre). }
  assert (is_page_header (strip raw) = true →
          startswith bold_open (strip raw) = false ∧ truthy (strip raw) = true)
    as Hheader.
  { intros [? ?%truthy_nonempty]%page_header_not_bold. done. }
  unfold read_line, starts_entry.
  destruct (startswith bold_open (strip raw)
            && negb (bool_decide (N.succ (n v) ∈ NOT_AN_ENTRY))) eqn:Hstart.
  - apply andb_prop in Hstart as [Hbold _].
    destruct (state v) eqn:Hs; cbn [S.eqb orb andb].
    + rewrite Hintro by done. split; [done|]. by intros [[=] _].
    + rewrite andb_true_r.
      destruct (bool_decide (N.succ (n v) ∈ ALWAYS_AN_ENTRY)) eqn:Hal; cbn.
      * apply bool_decide_eq_true in Hal. split; [done|].
        intros [_ [(_ & Hnot & _)|(Hh%Hheader & _)]]; [done|].
        destruct Hh. congruence.
      * apply bool_decide_eq_false in Hal. split.
        -- intros [= <-]. split; [done|]. by left.
        -- intros [_ [(_ & _ & ->)|(Hh%Hheader & _)]]; [done|].
           destruct Hh. congruence.
    + split; [done|]. by intros [[=] _].
    + split; [done|]. by intros [[=] _].
  - assert (bool_decide (N.succ (n v) ∈ NOT_AN_ENTRY)
            || negb (startswith bold_open (strip raw)) = true) as Hlast.
    { destruct (startswith bold_open (strip raw)); [|by rewrite orb_true_r].
      by destruct (bool_decide _). }
    destruct (state v) eqn:Hs; cbn [S.eqb orb andb].
    + split; [done|]. by intros [[=] _].
    + rewrite andb_true_r.
      destruct (truthy (strip raw)) eqn:Ht; cbn [negb].
      * destruct (is_page_header (strip raw)) eqn:Hh.
        -- split; [intros [= <-]; split; [done|by right]|].
           by intros [_ [(? & _)|(_ & ->)]].
        -- rewrite Hopen, Hlast by done.
           split; [done|]. by intros [_ [(? & _)|(? & _)]].
      * split; [done|]. intros [_ [(? & _)|(Hh%Hheader & _)]]; [done|].
        destruct Hh. congruence.
    + rewrite andb_false_r, Hopen, Hlast by done.
      split; [by repeat case_match|]. by intros [[=] _].
    + rewrite Hopen, Hlast by done.
      split; [by repeat case_match|]. by intros [[=] _].
Qed.

(** X9: [read_entries] raises in two situations only, both on a line read in
    the state [ENTRY], that is directly after entry text: a line that starts
    an entry at an ordinal outside [ALWAYS_AN_ENTRY] (the assertion error
    carries the state and the ordinal), and a page header (the assertion
    error has no message). No other assertion of the loop ever fails. *)
Theorem read_entries_raises_iff (in_file : list pystr) (x : exn) :
  read_entries in_file = Err x
  ↔ ∃ pre raw post v,
      in_file = pre ++ raw :: post
      ∧ for_each read_line initial pre = Ok v
      ∧ state v = S.ENTRY
      ∧ (starts_entry (N.succ (n v)) raw = true
         ∧ (N.succ (n v) ∉ ALWAYS_AN_ENTRY)
         ∧ x = AssertionError (StateOrdinal S.ENTRY (N.succ (n v)))
         ∨ is_page_header (strip raw) = true ∧ x = AssertionError NoMessage).
Proof.
  unfold read_entries.
  assert (for_each read_line initial in_file ≫= (λ v, Ok (finish v)) = Err x
          ↔ for_each read_line initial in_file = Err x) as ->.
  { destruct (for_each read_line initial in_file);
      rewrite ?bind_Ok_l, ?bind_Err_l; split; intros H; by simplify_eq. }
  rewrite for_each_Err. split.
  - intros (pre & raw & post & v & -> & Hpre & Hraw).
    exists pre, raw, post, v. split; [done|]. split; [done|].
    by apply (read_line_Err pre).
  - intros (pre & raw & post & v & -> & Hpre & Hraw).
    exists pre, raw, post, v. split; [done|]. split; [done|].
    by apply (read_line_Err pre).
Qed.

(** * Further properties of the headword extractor *)

(** X10: an entry that begins with a prefix of [HEADWORD_SPECIAL_CASES] yields
    exactly the headword the table gives for it, whatever follows the prefix
    and whatever the Unicode tables say: no two prefixes of the table begin
    the same entry. *)
Theorem special_case_headword (U : Unicode) (pfx hwd rest : pystr) :
  (pfx, hwd) ∈ HEADWORD_SPECIAL_CASES →
  extract_headwords (pfx ++ rest) = Ok [hwd].
Proof.
  intros Hin. unfold HEADWORD_SPECIAL_CASES in Hin.
  repeat (apply elem_of_cons in Hin as [[= -> ->]|Hin];
          [vm_compute; reflexivity|]).
  by apply elem_of_nil in Hin.
Qed.

Lemma special_case_headword_witness :
  extract_headwords (U := ascii_tables)
    (py "<B>I</B> THE Runic character" ++ py " for i")
  = Ok [py "i"].
Proof.
  apply (special_case_headword ascii_tables
           (py "<B>I</B> THE Runic character") (py "i") (py " for i")).
  apply (bool_decide_unpack _). vm_compute. exact I.
Defined.

(** ** The bolded start *)

Lemma ends_lit (p : pystr) (len : nat) (s : pystr) :
  ends (lit p) len s
  = if startswith p s then [(None, drop (length p) s)] else [].
Proof.
  revert s. induction p as [|c p IH]; intros s; [done|].
  cbn [lit ends startswith]. destruct s as [|x s]; [done|].
  destruct (c =? x); [|done]. rewrite bind_singleton, IH.
  by destruct (startswith p s).
Qed.

Lemma bind_group_none (ks : list nat) (c : N) (s : pystr) :
  map (λ k, (None : option pystr, drop k s)) ks
  ≫= (λ '(c2, s2), [(later_group None c2, s2)])
  = map (λ k, (None, drop k (c :: s))) (map Datatypes.S ks).
Proof.
  induction ks as [|k ks IH]; [done|].
  cbn [map]. rewrite bind_cons, IH. done.
Qed.

(** [[class]+] tries the longest run first, then the shorter ones. *)
Lemma ends_plus_chr (ok : N → bool) (len : nat) (s : pystr) (fuel : nat) :
  (length s < fuel)%nat →
  plus_iter (ends (Chr ok) len) fuel s
  = map (λ k, (None, drop k s))
      (reverse (seq 1 (length (run_of ok s)))).
Proof.
  revert fuel. induction s as [|c s IH]; intros fuel Hfuel;
    (destruct fuel as [|fuel]; [simpl in Hfuel; lia|]);
    cbn [plus_iter ends run_of]; [done|].
  destruct (ok c); [|done]. rewrite bind_singleton.
  assert ((length s <? length (c :: s))%nat = true) as ->
    by (apply Nat.ltb_lt; simpl; lia).
  simpl in Hfuel. rewrite IH by lia. rewrite (bind_group_none _ c).
  cbn [length seq]. rewrite reverse_cons, map_app.
  by rewrite <- (fmap_S_seq 1), fmap_reverse.
Qed.

Lemma run_of_split (ok : N → bool) (s : pystr) :
  s = run_of ok s ++ drop (length (run_of ok s)) s.
Proof.
  induction s as [|c s IH]; [done|]. cbn [run_of].
  destruct (ok c); [|done]. cbn [length drop app]. by rewrite <- IH.
Qed.

Lemma run_of_inside (ok : N → bool) (s : pystr) (k : nat) :
  (k < length (run_of ok s))%nat →
  ∃ c rest, drop k s = c :: rest ∧ ok c = true.
Proof.
  revert k. induction s as [|c s IH]; intros k; cbn [run_of].
  - simpl. lia.
  - destruct (ok c) eqn:Hc; [|simpl; lia]. destruct k as [|k].
    + intros _. by exists c, s.
    + cbn [length drop]. intros Hk. apply IH. lia.
Qed.

Lemma later_group_None_l (c : option pystr) : later_group None c = c.
Proof. by destruct c. Qed.

Lemma bind_nothing {A B : Type} (f : A → list B) (l : list A) :
  (∀ x, x ∈ l → f x = []) → l ≫= f = [].
Proof.
  induction l as [|x l IH]; intros H; [done|].
  rewrite bind_cons, (H x), IH; [done| |by left].
  intros y Hy. apply H. by right.
Qed.

Lemma ends_cat (a b : regex) (len : nat) (s : pystr) :
  ends (Cat a b) len s
  = ends a len s
    ≫= λ '(c1, s1), ends b len s1 ≫= λ '(c2, s2), [(later_group c1 c2, s2)].
Proof. done. Qed.

Lemma ends_group (a : regex) (len : nat) (s : pystr) :
  ends (Group a) len s
  = ends a len s ≫= λ '(_, s1), [(Some (take (length s - length s1) s), s1)].
Proof. done. Qed.

Lemma ends_plus (a : regex) (len : nat) (s : pystr) :
  ends (Plus a) len s = plus_iter (ends a len) (Datatypes.S (length s)) s.
Proof. done. Qed.

Lemma ends_bol (len : nat) (s : pystr) :
  ends Bol len s = if (length s =? len)%nat then [(None, s)] else [].
Proof. done. Qed.

Lemma ends_group_close_indices (len : nat) (s : pystr) (ks : list nat) :
  (map (λ k, (None : option pystr, drop k s)) ks
   ≫= (λ '(_, s1), [(Some (take (length s - length s1) s), s1)]))
  ≫= (λ '(c1, s1),
        ends (lit (py "</B>")) len s1 ≫= λ '(c2, s2), [(later_group c1 c2, s2)])
  = ks ≫= group_close_at s.
Proof.
  induction ks as [|k ks IH]; [done|].
  cbn [map]. rewrite !bind_cons, bind_app, IH. f_equal.
  rewrite bind_singleton, ends_lit. unfold group_close_at.
  by destruct (startswith (py "</B>") (drop k s)).
Qed.

Lemma ends_group_close (len : nat) (s : pystr) :
  ends (Cat (Group (Plus (Chr (λ c, negb (c =? 60))))) (lit (py "</B>"))) len s
  = let g := run_of (λ c, negb (c =? 60)) s in
    if truthy g && startswith (py "</B>") (drop (length g) s)
    then [(Some g, drop 4 (drop (length g) s))] else [].
Proof.
  rewrite ends_cat, ends_group, ends_plus, ends_plus_chr by lia.
  rewrite ends_group_close_indices.
  cbv zeta. set (ok := λ c, negb (c =? 60)).
  pose proof (run_of_split ok s) as Hsplit.
  pose proof (run_of_inside ok s) as Hinside.
  destruct (run_of ok s) as [|c0 g] eqn:Hg; [done|].
  cbn [truthy andb length]. rewrite seq_S, reverse_app, reverse_singleton.
  cbn [app]. rewrite bind_cons.
  match goal with |- _ ++ ?later = _ => assert (later = []) as -> end.
  { apply bind_nothing. intros k Hk%elem_of_reverse%elem_of_seq.
    destruct (Hinside k) as (c & rest & Hdrop & Hc); [simpl; lia|].
    unfold group_close_at. rewrite Hdrop.
    change (py "</B>") with [60; 47; 66; 62]. cbn [startswith].
    assert ((60 =? c) = false) as -> by (apply N.eqb_neq; by intros <-).
    done. }
  rewrite app_nil_r. unfold group_close_at.
  change (1 + length g)%nat with (length (c0 :: g)).
  change (S (length g)) with (length (c0 :: g)).
  destruct (startswith (py "</B>") (drop (length (c0 :: g)) s)); [|done].
  do 3 f_equal. rewrite Hsplit at 1 2 3.
  rewrite length_app, drop_app_length. 
  replace (length (c0 :: g) + length (drop (length (c0 :: g)) s)
           - length (drop (length (c0 :: g)) s))%nat
    with (length (c0 :: g)) by lia.
  by rewrite take_app_length.
Qed.

(** What [re.match('^<B>([^<]+)</B>', e)] finds: the bolded text of
    [bold_text], and nothing when there is none. *)
Lemma re_match_bolded_start (e : pystr) :
  re_match bolded_start e
  = match bold_text e with
    | Some g => Some (Some g, drop 4 (drop (3 + length g) e))
    | None => None
    end.
Proof.
  unfold re_match, bolded_start, bold_text.
  rewrite ends_cat, ends_bol, Nat.eqb_refl, bind_singleton.
  rewrite ends_cat, ends_lit.
  destruct (startswith (py "<B>") e); [|done].
  rewrite bind_singleton, ends_group_close. cbv zeta.
  change (length (py "<B>")) with 3%nat. rewrite !drop_drop.
  set (g := run_of (λ c, negb (c =? 60)) (drop 3 e)).
  destruct (truthy g && startswith (py "</B>") (drop (3 + length g) e)); [|done].
  rewrite !bind_singleton. cbn [head later_group].
  by rewrite drop_drop.
Qed.

(** [extract_headwords] without the matcher: the special cases, then the
    bolded text, split, cleaned and filtered. *)
Lemma extract_headwords_spec (U : Unicode) (e : pystr) :
  extract_headwords e
  = match List.find (λ kv, startswith (fst kv) e) HEADWORD_SPECIAL_CASES with
    | Some (_, hwd) => Ok [hwd]
    | None =>
        match bold_text e with
        | None => Err (AssertionError (EntryText e))
        | Some g =>
            Ok (drop_suffix_fragments (drop_prefix_fragments (cleaned_pieces g)))
        end
    end.
Proof.
  unfold extract_headwords. rewrite re_match_bolded_start.
  destruct (List.find _ _) as [[pfx hwd]|]; [done|].
  by destruct (bold_text e).
Qed.

(** ** The hyphen filters *)

Lemma filter_enumerate {A : Type} (f : nat * A → bool) (p : A → bool)
    (l : list A) (k : nat) :
  (∀ i x, l !! i = Some x → f ((k + i)%nat, x) = p x) →
  map snd (List.filter f (imap (λ i x, ((k + i)%nat, x)) l)) = List.filter p l.
Proof.
  revert k. induction l as [|x l IH]; intros k H; [done|].
  rewrite imap_cons. cbn [List.filter]. rewrite (H 0%nat x eq_refl).
  assert (map snd (List.filter f (imap ((λ i x, ((k + i)%nat, x)) ∘ Datatypes.S) l))
          = List.filter p l) as Hrest.
  { rewrite <- (IH (Datatypes.S k)).
    - do 2 f_equal. apply imap_ext. intros i y _. cbn. f_equal. lia.
    - intros i y Hy. rewrite <- (H (Datatypes.S i) y Hy). do 2 f_equal. lia. }
  destruct (p x); cbn [map snd]; by rewrite Hrest.
Qed.

(** The second filter keeps the first piece and, of the others, those that
    do not start with a hyphen. *)
Lemma drop_suffix_fragments_cons (x : pystr) (l : list pystr) :
  drop_suffix_fragments (x :: l)
  = x :: List.filter (λ w, negb (startswith [HYPHEN] w)) l.
Proof.
  unfold drop_suffix_fragments, enumerate. rewrite imap_cons.
  cbn [List.filter fst snd Nat.eqb]. rewrite orb_true_r. cbn [map snd].
  f_equal. apply (filter_enumerate _ _ l 1). intros i w _.
  cbn [fst snd Nat.add Nat.eqb]. by rewrite orb_false_r.
Qed.

(** The first filter keeps the last piece and, of the others, those that do
    not end with a hyphen. *)
Lemma drop_prefix_fragments_snoc (init : list pystr) (z : pystr) :
  drop_prefix_fragments (init ++ [z])
  = List.filter (λ w, negb (endswith [HYPHEN] w)) init ++ [z].
Proof.
  unfold drop_prefix_fragments, enumerate.
  rewrite imap_app, List.filter_app, map_app. f_equal.
  - apply (filter_enumerate _ _ init 0). intros i w Hw%lookup_lt_Some.
    cbn [fst snd Nat.add]. rewrite length_app. cbn [length].
    assert ((i + 1 =? length init + 1)%nat = false) as ->
      by (apply Nat.eqb_neq; lia).
    by rewrite orb_false_r.
  - cbn [imap List.filter fst snd]. rewrite length_app. cbn [length].
    rewrite Nat.add_0_r, Nat.eqb_refl, orb_true_r. done.
Qed.

Lemma drop_fragments_nil :
  drop_prefix_fragments [] = [] ∧ drop_suffix_fragments [] = [].
Proof. done. Qed.

(** ** The shape of the headword list *)

Lemma special_case_nonempty (e h : pystr) : special_case e = Some h → h ≠ [].
Proof.
  assert (forallb (λ kv, truthy (snd kv)) HEADWORD_SPECIAL_CASES = true) as H
    by (vm_compute; reflexivity).
  rewrite forallb_forall in H. unfold special_case.
  destruct (List.find _ _) as [[pfx hwd]|] eqn:Hfind; [|done].
  intros [= <-]. apply find_some in Hfind as [Hin%H _]. by destruct hwd.
Qed.

Lemma filter_sublist {A : Type} (p : A → bool) (l : list A) :
  List.filter p l `sublist_of` l.
Proof.
  induction l as [|a l IH]; cbn [List.filter]; [done|].
  destruct (p a); by constructor.
Qed.

Lemma elem_of_filter_bool {A : Type} (p : A → bool) (l : list A) (x : A) :
  x ∈ List.filter p l ↔ x ∈ l ∧ p x = true.
Proof. rewrite !list_elem_of_In. apply filter_In. Qed.

Lemma drop_prefix_fragments_sublist (l : list pystr) :
  drop_prefix_fragments l `sublist_of` l.
Proof.
  induction l as [|z init _] using rev_ind; [done|].
  rewrite drop_prefix_fragments_snoc. apply sublist_app; [apply filter_sublist|done].
Qed.

Lemma drop_suffix_fragments_sublist (l : list pystr) :
  drop_suffix_fragments l `sublist_of` l.
Proof.
  destruct l as [|x l]; [done|].
  rewrite drop_suffix_fragments_cons. apply sublist_skip, filter_sublist.
Qed.

(** A property that only the last element of a list may have, only the
    last element of a sublist may have; likewise for the first. *)
Lemma only_last_sublist {A : Type} (E : A → Prop) (l k : list A) :
  l `sublist_of` k →
  (∀ k1 w k2, k = k1 ++ w :: k2 → E w → k2 = []) →
  ∀ l1 w l2, l = l1 ++ w :: l2 → E w → l2 = [].
Proof.
  intros Hsub Hk l1 w l2 -> Hw.
  apply sublist_app_l in Hsub as (k1 & k2 & -> & _ & Hsub).
  apply sublist_cons_l in Hsub as (k21 & k22 & -> & Hsub).
  rewrite (Hk (k1 ++ k21) w k22) in Hsub;
    [by apply sublist_nil_r|by rewrite <- app_assoc|done].
Qed.

Lemma only_first_sublist {A : Type} (E : A → Prop) (l k : list A) :
  l `sublist_of` k →
  (∀ k1 w k2, k = k1 ++ w :: k2 → E w → k1 = []) →
  ∀ l1 w l2, l = l1 ++ w :: l2 → E w → l1 = [].
Proof.
  intros Hsub Hk l1 w l2 -> Hw.
  apply sublist_app_l in Hsub as (k1 & k2 & -> & Hsub1 & Hsub).
  apply sublist_cons_l in Hsub as (k21 & k22 & -> & _).
  destruct (app_eq_nil k1 k21) as [-> _];
    [apply (Hk (k1 ++ k21) w k22); [by rewrite <- app_assoc|done]|].
  by apply sublist_nil_r.
Qed.

Lemma drop_prefix_fragments_last (l l1 l2 : list pystr) (w : pystr) :
  drop_prefix_fragments l = l1 ++ w :: l2 → endswith [HYPHEN] w = true → l2 = [].
Proof.
  induction l as [|z init _] using rev_ind.
  { by destruct l1. }
  rewrite drop_prefix_fragments_snoc. intros Heq Hw.
  destruct l2 as [|y l2 _] using rev_ind; [done|]. exfalso.
  change (l1 ++ w :: l2 ++ [y]) with (l1 ++ (w :: l2) ++ [y]) in Heq.
  rewrite app_assoc in Heq. apply app_inj_tail in Heq as [Heq _].
  assert (w ∈ List.filter (λ w, negb (endswith [HYPHEN] w)) init) as Hin.
  { rewrite Heq. apply elem_of_app. right. left. }
  apply elem_of_filter_bool in Hin as [_ Hin]. by rewrite Hw in Hin.
Qed.

Lemma drop_suffix_fragments_first (l l1 l2 : list pystr) (w : pystr) :
  drop_suffix_fragments l = l1 ++ w :: l2 → startswith [HYPHEN] w = true → l1 = [].
Proof.
  destruct l as [|x l]; [by destruct l1|].
  rewrite drop_suffix_fragments_cons. intros Heq Hw.
  destruct l1 as [|y l1]; [done|]. exfalso.
  apply (f_equal tail) in Heq. cbn [tail app] in Heq.
  assert (w ∈ List.filter (λ w, negb (startswith [HYPHEN] w)) l) as Hin.
  { rewrite Heq. apply elem_of_app. right. left. }
  apply elem_of_filter_bool in Hin as [_ Hin]. by rewrite Hw in Hin.
Qed.

Lemma drop_fragments_nil_inv (l : list pystr) :
  drop_suffix_fragments (drop_prefix_fragments l) = [] ↔ l = [].
Proof.
  split; [|by intros ->].
  induction l as [|z init _] using rev_ind; [done|].
  rewrite drop_prefix_fragments_snoc.
  destruct (List.filter _ init ++ [z]) as [|x k] eqn:Hk.
  - by apply app_eq_nil in Hk as [_ [=]].
  - by rewrite drop_suffix_fragments_cons.
Qed.

Lemma drop_fragments_keep (l : list pystr) (w : pystr) :
  w ∈ l → startswith [HYPHEN] w = false → endswith [HYPHEN] w = false →
  w ∈ drop_suffix_fragments (drop_prefix_fragments l).
Proof.
  intros Hin Hs He.
  assert (w ∈ drop_prefix_fragments l) as Hin'.
  { induction l as [|z init _] using rev_ind; [done|].
    rewrite drop_prefix_fragments_snoc.
    apply elem_of_app in Hin as [Hin|Hin]; apply elem_of_app; [left|by right].
    apply elem_of_filter_bool. by rewrite He. }
  destruct (drop_prefix_fragments l) as [|x k]; [done|].
  rewrite drop_suffix_fragments_cons.
  apply elem_of_cons in Hin' as [->|Hin']; [left|right].
  apply elem_of_filter_bool. by rewrite Hs.
Qed.

Section HeadwordShape.
Context {U : Unicode}.

Lemma cleaned_pieces_cleaned (g : pystr) :
  cleaned_pieces g = List.filter truthy (map cleaned (split_on COMMA g)).
Proof. unfold cleaned_pieces. by rewrite map_map. Qed.

Lemma cleaned_pieces_nil (g : pystr) :
  cleaned_pieces g = [] ↔ Forall (λ piece, cleaned piece = []) (split_on COMMA g).
Proof.
  rewrite cleaned_pieces_cleaned.
  induction (split_on COMMA g) as [|p ps IH]; cbn [map List.filter].
  - split; [by constructor|done].
  - rewrite Forall_cons. destruct (cleaned p); cbn [truthy].
    + rewrite IH. by split; [|intros [_ ?]].
    + split; [done|]. by intros [[=] _].
Qed.

(** What [extract_headwords] returns, when it returns. *)
Lemma extract_headwords_Ok (e : pystr) (hs : list pystr) :
  extract_headwords e = Ok hs ↔
  (∃ h, special_case e = Some h ∧ hs = [h])
  ∨ (special_case e = None
     ∧ ∃ g, bold_text e = Some g
            ∧ hs = drop_suffix_fragments (drop_prefix_fragments (cleaned_pieces g))).
Proof.
  rewrite extract_headwords_spec. unfold special_case.
  destruct (List.find _ _) as [[pfx hwd]|]; cbn [fmap option_fmap option_map snd].
  - split.
    + intros [= <-]. left. eauto.
    + by intros [(h & [= <-] & ->)|[[=] _]].
  - destruct (bold_text e) as [g|]; split.
    + intros [= <-]. right. eauto.
    + by intros [(h & [=] & _)|(_ & g' & [= <-] & ->)].
    + done.
    + by intros [(h & [=] & _)|(_ & g' & [=] & _)].
Qed.

Lemma extract_headwords_no_empty (e : pystr) (hs : list pystr) :
  extract_headwords e = Ok hs → [] ∉ hs.
Proof.
  intros [(h & Hh & ->)|(_ & g & _ & ->)]%extract_headwords_Ok Hin.
  - apply list_elem_of_singleton in Hin. by apply special_case_nonempty in Hh.
  - eapply elem_of_sublist in Hin; [|apply drop_suffix_fragments_sublist].
    eapply elem_of_sublist in Hin; [|apply drop_prefix_fragments_sublist].
    by apply elem_of_filter_bool in Hin as [_ ?].
Qed.

(** X11: [extract_headwords] raises one error only, the assertion error with
    the entry as its message, and raises it exactly on an entry that starts
    with no special-case prefix and has no bolded text at its start: it does
    not begin with ["<B>"], or the text up to the next ['<'] is empty, or
    the tag that closes it is not ["</B>"]. *)
Theorem extract_headwords_raises (e : pystr) (x : exn) :
  extract_headwords e = Err x ↔
  special_case e = None ∧ bold_text e = None ∧ x = AssertionError (EntryText e).
Proof.
  rewrite extract_headwords_spec. unfold special_case.
  destruct (List.find _ _) as [[pfx hwd]|]; cbn [fmap option_fmap option_map snd].
  - split; [done|]. by intros [[=] _].
  - destruct (bold_text e) as [g|]; split.
    + done.
    + by intros (_ & [=] & _).
    + by intros [= <-].
    + by intros (_ & _ & ->).
Qed.

(** X12: every headword [extract_headwords] returns is a non-empty string;
    only the first of them can start with a hyphen, and only the last can
    end with one. *)
Theorem headwords_shape (e : pystr) (hs : list pystr) (i : nat) (w : pystr) :
  extract_headwords e = Ok hs → hs !! i = Some w →
  w ≠ []
  ∧ (startswith [HYPHEN] w = true → i = 0%nat)
  ∧ (endswith [HYPHEN] w = true → Datatypes.S i = length hs).
Proof.
  intros Hex Hi. split.
  { intros ->. apply (extract_headwords_no_empty e hs Hex).
    by eapply list_elem_of_lookup_2. }
  pose proof (lookup_lt_Some _ _ _ Hi) as Hlt.
  apply extract_headwords_Ok in Hex as [(h & _ & ->)|(_ & g & _ & ->)].
  { simpl in Hlt. split; intros _; simpl; lia. }
  set (l := cleaned_pieces g) in *.
  pose proof (take_drop_middle _ _ _ Hi) as Hmid. symmetry in Hmid. split; intros Hw.
  - apply drop_suffix_fragments_first in Hmid; [|done].
    apply (f_equal length) in Hmid. rewrite length_take in Hmid. simpl in Hmid. lia.
  - eapply (only_last_sublist (λ w, endswith [HYPHEN] w = true)) in Hmid;
      [|apply drop_suffix_fragments_sublist| |done].
    + apply (f_equal length) in Hmid. rewrite length_drop in Hmid. simpl in Hmid. lia.
    + intros k1 w' k2. apply drop_prefix_fragments_last.
Qed.

(** X13: an entry with a bolded text and no special case gets no headword at
    all exactly when every comma piece of the bolded text is cleaned to the
    empty string. *)
Theorem no_headword_iff (e g : pystr) :
  special_case e = None → bold_text e = Some g →
  extract_headwords e = Ok []
  ↔ Forall (λ piece, cleaned piece = []) (split_on COMMA g).
Proof.
  intros Hs Hg. rewrite <- cleaned_pieces_nil, extract_headwords_Ok. split.
  - intros [(h & _ & [=])|(_ & g' & Hg' & Hnil)].
    rewrite Hg in Hg'. injection Hg' as <-. by apply drop_fragments_nil_inv.
  - intros Hnil. right. split; [done|]. exists g. split; [done|]. by rewrite Hnil.
Qed.

(** X14: the headwords of an entry with a bolded text and no special case are
    cleaned comma pieces of that text, in the order of the text; every
    non-empty cleaned piece that neither starts nor ends with a hyphen is
    among them. *)
Theorem headwords_are_cleaned_pieces (e g : pystr) (hs : list pystr) :
  special_case e = None → bold_text e = Some g → extract_headwords e = Ok hs →
  hs `sublist_of` map cleaned (split_on COMMA g)
  ∧ ∀ piece, piece ∈ split_on COMMA g → cleaned piece ≠ [] →
      startswith [HYPHEN] (cleaned piece) = false →
      endswith [HYPHEN] (cleaned piece) = false →
      cleaned piece ∈ hs.
Proof.
  intros Hs Hg [(h & Hh & _)|(_ & g' & Hg' & ->)]%extract_headwords_Ok.
  { rewrite Hs in Hh. done. }
  rewrite Hg in Hg'. injection Hg' as <-. split.
  - etransitivity; [apply drop_suffix_fragments_sublist|].
    etransitivity; [apply drop_prefix_fragments_sublist|].
    rewrite cleaned_pieces_cleaned. apply filter_sublist.
  - intros piece Hin Hne Hstart Hend. apply drop_fragments_keep; [|done..].
    rewrite cleaned_pieces_cleaned. apply elem_of_filter_bool. split.
    + apply list_elem_of_fmap. eauto.
    + by destruct (cleaned piece).
Qed.

(** X15: [unaccented_letters] returns the characters of the NFKD form of its
    argument that are word characters, spaces or hyphens, in their order. *)
Theorem unaccented_letters_keeps (s : pystr) :
  unaccented_letters s
  = List.filter (λ c, isword c || (c =? SPACE) || (c =? HYPHEN)) (nfkd s).
Proof.
  unfold unaccented_letters, not_letter. rewrite re_sub_chr.
  apply filter_ext. intros c. apply negb_involutive.
Qed.

End HeadwordShape.

Lemma headwords_shape_witness :
  py "baz-" ≠ []
  ∧ (startswith [HYPHEN] (py "baz-") = true → 2%nat = 0%nat)
  ∧ (endswith [HYPHEN] (py "baz-") = true
     → 3%nat = length [py "-foo"; py "bar"; py "baz-"]).
Proof.
  apply (headwords_shape (U := ascii_tables) (py "<B>-foo, Bar, baz-</B> x")
           [py "-foo"; py "bar"; py "baz-"] 2 (py "baz-"));
    vm_compute; reflexivity.
Defined.

Lemma no_headword_iff_witness :
  extract_headwords (U := ascii_tables) (py "<B>i, x 2</B> y") = Ok []
  ↔ Forall (λ piece, cleaned (U := ascii_tables) piece = [])
      (split_on COMMA (py "i, x 2")).
Proof.
  apply (no_headword_iff (U := ascii_tables) (py "<B>i, x 2</B> y") (py "i, x 2"));
    vm_compute; reflexivity.
Defined.

Lemma headwords_are_cleaned_pieces_witness :
  [py "bar"; py "baz"]
    `sublist_of` map (cleaned (U := ascii_tables))
                   (split_on COMMA (py "foo-, Bar i, baz"))
  ∧ ∀ piece, piece ∈ split_on COMMA (py "foo-, Bar i, baz") →
      cleaned (U := ascii_tables) piece ≠ [] →
      startswith [HYPHEN] (cleaned (U := ascii_tables) piece) = false →
      endswith [HYPHEN] (cleaned (U := ascii_tables) piece) = false →
      cleaned (U := ascii_tables) piece ∈ [py "bar"; py "baz"].
Proof.
  apply (headwords_are_cleaned_pieces (U := ascii_tables)
           (py "<B>foo-, Bar i, baz</B> x") (py "foo-, Bar i, baz"));
    vm_compute; reflexivity.
Defined.

(** ** What [remove_trailing_part_refs] removes *)

Lemma forallb_Forall {A : Type} (f : A → bool) (l : list A) :
  forallb f l = true ↔ Forall (λ x, f x = true) l.
Proof.
  induction l as [|a l IH]; cbn [forallb]; [by split; [constructor|]|].
  by rewrite andb_true_iff, Forall_cons, IH.
Qed.

(** Joining the pieces of a split, each after the separator it was split
    at, gives the string back, after one more separator. *)
Lemma ref_chain_split_on (rest : pystr) :
  ref_chain (split_on SPACE rest) = SPACE :: rest.
Proof.
  unfold ref_chain. induction rest as [|c rest IH]; [done|]. cbn [split_on].
  destruct (c =? SPACE) eqn:Hc.
  - apply N.eqb_eq in Hc as ->. cbn [map concat app]. by rewrite IH.
  - destruct (split_on SPACE rest) as [|w ws]; [done|].
    cbn [map concat app] in *. by injection IH as ->.
Qed.

Lemma cut_refs_split (len : nat) (u : pystr) :
  ∃ tail, u = cut_refs len u ++ tail
          ∧ (tail = [] ∨ is_ref_chain (length tail =? len)%nat tail = true).
Proof.
  induction u as [|c u (tail & Hu & Htail)]; [by exists []; split; [|left]|].
  cbn [cut_refs]. destruct (is_ref_chain _ (c :: u)) eqn:Hchain.
  - exists (c :: u). split; [done|by right].
  - exists tail. split; [|done]. cbn [app]. by rewrite <- Hu.
Qed.

(** X16: [remove_trailing_part_refs] removes nothing but markers: the trimmed
    argument is the result followed by reference markers, each after one
    space; or the result is empty and the trimmed argument is reference
    markers with one space between them. *)
Theorem only_part_refs_are_removed (s : pystr) :
  ∃ ms, Forall (λ m, is_part_ref m = true) ms
        ∧ (strip s = remove_trailing_part_refs s ++ ref_chain ms
           ∨ (remove_trailing_part_refs s = []
              ∧ SPACE :: strip s = ref_chain ms)).
Proof.
  rewrite remove_trailing_part_refs_cut.
  destruct (cut_refs_split (length (strip s)) (strip s)) as (tail & Hu & Htail).
  destruct Htail as [->|Hchain].
  { exists []. split; [constructor|]. left. rewrite app_nil_r in Hu.
    cbn [ref_chain map concat]. by rewrite app_nil_r. }
  apply is_ref_chain_spec in Hchain as [(rest & -> & Hall)|[Hlen Hall]].
  - exists (split_on SPACE rest). split; [by apply forallb_Forall|].
    left. by rewrite ref_chain_split_on.
  - exists (split_on SPACE tail). split; [by apply forallb_Forall|].
    right. rewrite ref_chain_split_on. apply Nat.eqb_eq in Hlen.
    assert (cut_refs (length (strip s)) (strip s) = []) as Hcut.
    { apply (f_equal length) in Hu. rewrite length_app in Hu.
      apply length_zero_iff_nil. lia. }
    split; [done|]. rewrite Hcut in Hu. by rewrite Hu at 1.
Qed.

(** X17: [remove_trailing_part_refs] erases a term that is not blank
    completely exactly when the trimmed term consists of reference markers
    with one space between them. *)
Theorem marker_terms_are_erased (s : pystr) :
  strip s ≠ [] →
  remove_trailing_part_refs s = []
  ↔ Forall (λ m, is_part_ref m = true) (split_on SPACE (strip s)).
Proof.
  intros Hne. rewrite remove_trailing_part_refs_cut, <- forallb_Forall.
  pose proof (strip_trimmed s) as [Hhead _].
  destruct (strip s) as [|c u]; [done|]. cbn [cut_refs].
  rewrite Nat.eqb_refl.
  destruct (is_ref_chain true (c :: u)) eqn:Hchain.
  - split; [intros _|done].
    apply is_ref_chain_spec in Hchain as [(rest & [= -> ->] & _)|[_ Hall]]; [|done].
    by specialize (Hhead SPACE eq_refl).
  - split; [done|]. intros Hall.
    assert (is_ref_chain true (c :: u) = true) as Hyes
      by (apply is_ref_chain_spec; by right).
    congruence.
Qed.

Lemma marker_terms_are_erased_witness :
  remove_trailing_part_refs (py " iv b 12 ") = []
  ↔ Forall (λ m, is_part_ref m = true) (split_on SPACE (strip (py " iv b 12 "))).
Proof.
  apply (marker_terms_are_erased (py " iv b 12 ")). vm_compute. discriminate.
Defined.

(** ** The characters of a headword *)

Lemma elem_of_strip (s : pystr) (c : N) : c ∈ strip s → c ∈ s.
Proof.
  unfold strip. intros Hc.
  destruct (lstrip_split s) as (pre & Hs & _).
  destruct (rstrip_split (lstrip s)) as (post & Hl & _).
  rewrite Hs, Hl. apply elem_of_app. right. apply elem_of_app. by left.
Qed.

Lemma elem_of_remove_trailing_part_refs (s : pystr) (c : N) :
  c ∈ remove_trailing_part_refs s → c ∈ s.
Proof.
  rewrite remove_trailing_part_refs_cut. intros Hc. apply elem_of_strip.
  destruct (cut_refs_split (length (strip s)) (strip s)) as (tail & Hu & _).
  rewrite Hu. apply elem_of_app. by left.
Qed.

(** X25: every character of every headword [extract_headwords] returns is
    a word character, a space or a hyphen. *)
Theorem headword_characters (U : Unicode) (e : pystr) (hs : list pystr)
    (w : pystr) (c : N) :
  extract_headwords e = Ok hs → w ∈ hs → c ∈ w →
  isword c || (c =? SPACE) || (c =? HYPHEN) = true.
Proof.
  intros [(h & Hh & ->)|(_ & g & _ & ->)]%extract_headwords_Ok Hw Hc.
  - apply list_elem_of_singleton in Hw as ->.
    assert (forallb (λ kv, forallb (λ c, (c <? 128) && ascii_word c) (snd kv))
              HEADWORD_SPECIAL_CASES = true) as Hall by (vm_compute; reflexivity).
    rewrite forallb_forall in Hall. unfold special_case in Hh.
    destruct (List.find _ _) as [[pfx hwd]|] eqn:Hfind; [|done].
    injection Hh as <-. apply find_some in Hfind as [Hin%Hall _].
    cbn [snd] in Hin. rewrite forallb_forall in Hin.
    apply list_elem_of_In, Hin, andb_prop in Hc as [Hlt%N.ltb_lt Hword].
    by rewrite isword_ascii, Hword.
  - eapply elem_of_sublist in Hw; [|apply drop_suffix_fragments_sublist].
    eapply elem_of_sublist in Hw; [|apply drop_prefix_fragments_sublist].
    rewrite cleaned_pieces_cleaned in Hw.
    apply elem_of_filter_bool in Hw as [(piece & -> & _)%list_elem_of_fmap _].
    apply elem_of_remove_trailing_part_refs in Hc.
    unfold unaccented_letters, not_letter in Hc. rewrite re_sub_chr in Hc.
    apply elem_of_filter_bool in Hc as [_ Hc]. by apply negb_true_iff, negb_false_iff in Hc.
Qed.

Lemma headword_characters_witness :
  ascii_word 45 || (45 =? SPACE) || (45 =? HYPHEN) = true.
Proof.
  apply (headword_characters ascii_tables (py "<B>Ge-reafian i, x.</B> y")
           [py "ge-reafian"] (py "ge-reafian") 45).
  - vm_compute. reflexivity.
  - left.
  - apply (bool_decide_unpack _). vm_compute. exact I.
Defined.

(** * Further properties of the aggregator *)

Lemma total_defns_insert (m : gmap pystr Entry) (k : pystr) (r : Entry) :
  (total_defns (<[k := r]> m) + length (defns (get_or_new m k))
   = total_defns m + length (defns r))%nat.
Proof.
  assert (∀ (m' : gmap pystr Entry) x, m' !! k = None →
            total_defns (<[k := x]> m') = (length (defns x) + total_defns m')%nat)
    as Hfresh.
  { intros m' x Hk. unfold total_defns.
    rewrite map_fold_insert_L; [done| |done]. intros. lia. }
  unfold get_or_new. destruct (m !! k) as [old|] eqn:Hk; cbn [default].
  - rewrite <- (insert_delete_eq m k r).
    rewrite <- (insert_delete_id m k old Hk) at 2.
    rewrite !Hfresh by apply lookup_delete_eq. unfold id. lia.
  - rewrite Hfresh by done. simpl. lia.
Qed.

Section AggregatorFurther.
Context {U : Unicode}.
Variable fix_entities : pystr → pystr.
Variable ascify : pystr → pystr.

Lemma key_of_Some (e k : pystr) :
  key_of fix_entities ascify e = Some k ↔
  ∃ first rest,
    extract_headwords (fix_entities e) = Ok (first :: rest) ∧ k = ascify first.
Proof.
  unfold key_of.
  destruct (extract_headwords (fix_entities e)) as [[|first rest]|x]; split.
  - done.
  - by intros (? & ? & [=] & _).
  - intros [= <-]. eauto.
  - by intros (? & ? & [= <- <-] & ->).
  - done.
  - by intros (? & ? & [=] & _).
Qed.

(** An iteration completes exactly on an entry that has a key, and a
    non-empty one; the mapping collected so far plays no part. *)
Lemma collect_entry_completes (m : gmap pystr Entry) (e : pystr) :
  (∃ m', collect_entry fix_entities ascify m e = Ok m')
  ↔ ∃ k, key_of fix_entities ascify e = Some k ∧ k ≠ [].
Proof.
  split.
  - intros [m' (first & rest & Hex & Hk & _ & _)%collect_entry_Ok].
    exists (ascify first). split; [|done]. apply key_of_Some. eauto.
  - intros (k & (first & rest & Hex & ->)%key_of_Some & Hk).
    eexists. apply collect_entry_Ok. exists first, rest.
    split; [done|]. split; [done|]. split; [|reflexivity].
    by eapply extract_headwords_no_empty.
Qed.

(** The converse of [collect_lookup]: what is under the key [k] comes from
    the mapping the loop started with or from an entry of that key. *)
Lemma collect_lookup_conv (es : list pystr) (m0 m : gmap pystr Entry) (k : pystr) :
  for_each (collect_entry fix_entities ascify) m0 es = Ok m →
  (is_Some (m !! k) →
     is_Some (m0 !! k) ∨ ∃ e, e ∈ es ∧ key_of fix_entities ascify e = Some k)
  ∧ (∀ h, h ∈ headwords (get_or_new m k) →
       h ∈ headwords (get_or_new m0 k)
       ∨ ∃ e hwds, e ∈ es ∧ key_of fix_entities ascify e = Some k
                   ∧ extract_headwords (fix_entities e) = Ok hwds ∧ h ∈ hwds).
Proof.
  revert m0. induction es as [|e es IH]; intros m0; cbn [for_each].
  - intros [= <-]. split; eauto.
  - intros (m1 & Hstep & Hrest)%bind_Ok.
    destruct (IH m1 Hrest) as (Hsome & Hh). clear IH.
    apply collect_entry_Ok in Hstep as (first & rest & Hex & Hk & Hno & ->).
    assert (key_of fix_entities ascify e = Some (ascify first)) as Hkey.
    { unfold key_of. by rewrite Hex. }
    destruct (decide (ascify first = k)) as [<-|Hne].
    + split.
      * intros _. right. exists e. split; [left|done].
      * intros h [Hin|(e' & hwds & He' & ?)]%Hh.
        -- rewrite get_or_new_insert_eq in Hin. cbn [headwords] in Hin.
           apply elem_of_union in Hin as [Hin|Hin]; [by left|].
           right. exists e, (first :: rest).
           split; [left|]. split; [done|]. split; [done|].
           by apply elem_of_list_to_set in Hin.
        -- right. exists e', hwds. split; [by right|done].
    + rewrite lookup_insert_ne in Hsome by done.
      split.
      * intros [H|(e' & He' & ?)]%Hsome; [by left|].
        right. exists e'. split; [by right|done].
      * intros h [Hin|(e' & hwds & He' & ?)]%Hh.
        -- rewrite get_or_new_insert_ne in Hin by done. by left.
        -- right. exists e', hwds. split; [by right|done].
Qed.

Lemma for_each_total_defns (es : list pystr) (m0 m : gmap pystr Entry) :
  for_each (collect_entry fix_entities ascify) m0 es = Ok m →
  total_defns m = (total_defns m0 + length es)%nat.
Proof.
  revert m0. induction es as [|e es IH]; intros m0; cbn [for_each].
  - intros [= <-]. simpl. lia.
  - intros (m1 & Hstep & Hrest)%bind_Ok. rewrite (IH m1 Hrest).
    apply collect_entry_Ok in Hstep as (first & rest & _ & _ & _ & ->).
    pose proof (total_defns_insert m0 (ascify first)
      (mkEntry (headwords (get_or_new m0 (ascify first)) ∪ list_to_set (first :: rest))
               (defns (get_or_new m0 (ascify first)) ++ [fix_entities e]))) as H.
    cbn [defns] in H. rewrite length_app in H. simpl in *. lia.
Qed.

(** X18: [collect_entries] completes exactly when every entry has a key (its
    extraction returns at least one headword) and that key is not the empty
    string. *)
Theorem collect_entries_completes_iff (entries : list pystr) :
  (∃ m, collect_entries fix_entities ascify entries = Ok m)
  ↔ Forall (λ e, ∃ k, key_of fix_entities ascify e = Some k ∧ k ≠ []) entries.
Proof.
  unfold collect_entries. generalize (∅ : gmap pystr Entry).
  induction entries as [|e es IH]; intros m0; cbn [for_each].
  - split; [by constructor|eauto].
  - rewrite Forall_cons, <- (collect_entry_completes m0). split.
    + intros [m (m1 & Hstep & Hrest)%bind_Ok]. split; [eauto|].
      apply (IH m1). eauto.
    + intros [[m1 Hstep] Hrest]. apply (IH m1) in Hrest as [m Hrest].
      exists m. apply bind_Ok. eauto.
Qed.

(** X19: the bad-normalization error is raised for an empty key only: on an
    entry whose extraction returns headwords and whose first headword is
    ascified to the empty string. An empty headword never causes it, since
    the extraction returns none. *)
Theorem bad_normalization_iff (m : gmap pystr Entry) (e t e' : pystr)
    (hs : list pystr) :
  collect_entry fix_entities ascify m e = Err (BadNormalization t hs e')
  ↔ e' = fix_entities e ∧ extract_headwords e' = Ok hs
    ∧ ascify <$> head hs = Some t ∧ t = [].
Proof.
  rewrite collect_entry_Err. split.
  - intros [Hex|[[_ [=]]|(first & rest & Hex & Hbad & [= -> -> ->])]].
    + rewrite extract_headwords_spec in Hex.
      destruct (List.find _ _) as [[??]|]; [done|].
      by destruct (bold_text _).
    + split; [done|]. split; [done|]. split; [done|].
      destruct Hbad as [?|Hin]; [done|].
      by apply extract_headwords_no_empty in Hex.
  - intros (-> & Hex & Hhead & ->). right. right.
    destruct hs as [|first rest]; [done|]. injection Hhead as Hhead.
    exists first, rest. split; [done|]. split; [by left|]. by rewrite Hhead.
Qed.

(** X20: the mapping [collect_entries] returns has a record under [k] exactly
    when some entry of the stream has the key [k]. *)
Theorem collect_entries_keys (entries : list pystr) (m : gmap pystr Entry)
    (k : pystr) :
  collect_entries fix_entities ascify entries = Ok m →
  is_Some (m !! k)
  ↔ ∃ e, e ∈ entries ∧ key_of fix_entities ascify e = Some k.
Proof.
  intros Hrun. split.
  - intros [H|H]%(proj1 (collect_lookup_conv entries ∅ m k Hrun)); [|done].
    rewrite lookup_empty in H. by destruct H.
  - intros H.
    destruct (collect_lookup fix_entities ascify entries ∅ m k Hrun)
      as (_ & _ & _ & Hsome).
    apply Hsome. by right.
Qed.

(** X21: the record under [k] holds the entity-normalized entries of key [k],
    all of them, in the order of the stream and as often as they occur, and
    nothing else; its headword set holds the headwords extracted from these
    entries, and nothing else. *)
Theorem collect_entries_record (entries : list pystr) (m : gmap pystr Entry)
    (k : pystr) (r : Entry) :
  collect_entries fix_entities ascify entries = Ok m → m !! k = Some r →
  defns r
  = map fix_entities (filter (λ e, key_of fix_entities ascify e = Some k) entries)
  ∧ ∀ h, h ∈ headwords r
         ↔ ∃ e hwds, e ∈ entries ∧ key_of fix_entities ascify e = Some k
                     ∧ extract_headwords (fix_entities e) = Ok hwds ∧ h ∈ hwds.
Proof.
  intros Hrun Hr.
  destruct (collect_lookup fix_entities ascify entries ∅ m k Hrun) as (Hd & Hh & _ & _).
  destruct (collect_lookup_conv entries ∅ m k Hrun) as (_ & Hconv).
  assert (get_or_new m k = r) as Hget by (unfold get_or_new; by rewrite Hr).
  rewrite Hget in Hd, Hh, Hconv. split.
  - rewrite Hd. unfold get_or_new. by rewrite lookup_empty.
  - intros h. split.
    + intros [Hin|Hin]%Hconv; [|done].
      unfold get_or_new in Hin. rewrite lookup_empty in Hin.
      by apply elem_of_empty in Hin.
    + intros (e & hwds & He & Hk & Hex & Hin). by eapply Hh.
Qed.

(** X22: the mapping [collect_entries] returns holds as many definitions, over
    all its records, as the stream has entries: no entry is lost, none is
    stored twice. *)
Theorem collect_entries_keeps_every_entry (entries : list pystr)
    (m : gmap pystr Entry) :
  collect_entries fix_entities ascify entries = Ok m →
  total_defns m = length entries.
Proof.
  intros Hrun%for_each_total_defns. rewrite Hrun. unfold total_defns.
  by rewrite map_fold_empty.
Qed.

End AggregatorFurther.

Lemma collect_entries_keys_witness :
  is_Some (({[ py "foo" :=
                 mkEntry {[ py "foo"; py "bar" ]}
                         [py "<B>foo</B> x"; py "<B>Foo, bar</B> y"] ]}
            : gmap pystr Entry) !! py "foo")
  ↔ ∃ e, e ∈ [py "<B>foo</B> x"; py "<B>Foo, bar</B> y"]
         ∧ key_of (U := ascii_tables) (λ e, e) (λ h, h) e = Some (py "foo").
Proof.
  apply (collect_entries_keys (U := ascii_tables) (λ e, e) (λ h, h)
           [py "<B>foo</B> x"; py "<B>Foo, bar</B> y"]).
  vm_compute. reflexivity.
Defined.

Lemma collect_entries_record_witness :
  defns (mkEntry {[ py "foo"; py "bar" ]}
                 [py "<B>foo</B> x"; py "<B>Foo, bar</B> y"])
  = map (λ e, e)
      (filter (λ e, key_of (U := ascii_tables) (λ e, e) (λ h, h) e = Some (py "foo"))
         [py "<B>foo</B> x"; py "<B>other</B> z"; py "<B>Foo, bar</B> y"])
  ∧ ∀ h, h ∈ headwords (mkEntry {[ py "foo"; py "bar" ]}
                                [py "<B>foo</B> x"; py "<B>Foo, bar</B> y"])
         ↔ ∃ e hwds,
             e ∈ [py "<B>foo</B> x"; py "<B>other</B> z"; py "<B>Foo, bar</B> y"]
             ∧ key_of (U := ascii_tables) (λ e, e) (λ h, h) e = Some (py "foo")
             ∧ extract_headwords (U := ascii_tables) e = Ok hwds ∧ h ∈ hwds.
Proof.
  apply (collect_entries_record (U := ascii_tables) (λ e, e) (λ h, h)
           [py "<B>foo</B> x"; py "<B>other</B> z"; py "<B>Foo, bar</B> y"]
           ({[ py "foo" := mkEntry {[ py "foo"; py "bar" ]}
                                   [py "<B>foo</B> x"; py "<B>Foo, bar</B> y"];
               py "other" := mkEntry {[ py "other" ]} [py "<B>other</B> z"] ]}
            : gmap pystr Entry)
           (py "foo"));
    vm_compute; reflexivity.
Defined.

Lemma collect_entries_keeps_every_entry_witness :
  total_defns
    ({[ py "foo" := mkEntry {[ py "foo"; py "bar" ]}
                            [py "<B>foo</B> x"; py "<B>Foo, bar</B> y"];
        py "other" := mkEntry {[ py "other" ]} [py "<B>other</B> z"] ]}
     : gmap pystr Entry)
  = length [py "<B>foo</B> x"; py "<B>other</B> z"; py "<B>Foo, bar</B> y"].
Proof.
  apply (collect_entries_keeps_every_entry (U := ascii_tables) (λ e, e) (λ h, h)).
  vm_compute. reflexivity.
Defined.

(** * The segmenter and the aggregator together *)

Section Main.
Context {U : Unicode}.
Variable fix_entities : pystr → pystr.
Variable ascify : pystr → pystr.

(** X23: when the two stages of [main] complete, the mapping holds as many
    definitions, over all its records, as the input has lines that start
    an entry: lines that begin, once trimmed, with the bold marker and whose
    ordinal is not in [NOT_AN_ENTRY]. *)
Theorem one_definition_per_entry_line (ascii_stdin : list pystr)
    (m : gmap pystr Entry) :
  main_collected fix_entities ascify ascii_stdin = Ok m →
  total_defns m = count_starts 0 ascii_stdin.
Proof.
  unfold main_collected, read_entries.
  intros (es & (v & Hloop & [= <-])%bind_Ok & Hrun)%bind_Ok.
  rewrite (for_each_total_defns fix_entities ascify _ _ _ Hrun).
  rewrite (for_each_counts_starts _ _ _ Hloop).
  unfold total_defns. rewrite map_fold_empty. done.
Qed.

(** X24: when the two stages of [main] complete, every definition stored under
    a key [k] is the entity-normalized form of a block of the input: a
    bolded line, trimmed, followed by later lines of the input, each trimmed
    and ended by a line feed; and [k] is the key of that block. *)
Theorem stored_definitions_are_blocks (ascii_stdin : list pystr)
    (m : gmap pystr Entry) (k : pystr) (r : Entry) (d : pystr) :
  main_collected fix_entities ascify ascii_stdin = Ok m →
  m !! k = Some r → d ∈ defns r →
  ∃ start conts,
    sublist (start :: conts) ascii_stdin
    ∧ startswith bold_open (strip start) = true
    ∧ d = fix_entities (render start conts)
    ∧ key_of fix_entities ascify (render start conts) = Some k.
Proof.
  unfold main_collected. intros (es & Hread & Hrun)%bind_Ok Hr Hd.
  destruct (collect_lookup fix_entities ascify es ∅ m k Hrun) as (Hdefns & _).
  assert (get_or_new m k = r) as Hget by (unfold get_or_new; by rewrite Hr).
  rewrite Hget in Hdefns. unfold get_or_new in Hdefns.
  rewrite lookup_empty in Hdefns. cbn [default defns app] in Hdefns.
  rewrite Hdefns in Hd.
  apply list_elem_of_fmap in Hd as (b & -> & [Hk Hb]%list_elem_of_filter).
  destruct (read_entries_block_shape _ _ Hread b Hb)
    as (start & conts & Hsub & Hbold & ->).
  by exists start, conts.
Qed.

End Main.

Lemma one_definition_per_entry_line_witness :
  total_defns
    ({[ py "foo" := mkEntry {[ py "foo"; py "bar" ]}
                            [py "<B>foo</B> x" ++ py "more" ++ nl;
                             py "<B>Foo, bar</B> y"] ]}
     : gmap pystr Entry)
  = count_starts 0
      [py "intro"; py "<B>foo</B> x"; py " more "; py "";
       py "<B>Foo, bar</B> y"].
Proof.
  apply (one_definition_per_entry_line (U := ascii_tables) (λ e, e) (λ h, h)).
  vm_compute. reflexivity.
Defined.

Lemma stored_definitions_are_blocks_witness :
  ∃ start conts,
    sublist (start :: conts)
      [py "intro"; py "<B>foo</B> x"; py " more "; py "";
       py "<B>Foo, bar</B> y"]
    ∧ startswith bold_open (strip start) = true
    ∧ py "<B>foo</B> x" ++ py "more" ++ nl = render start conts
    ∧ key_of (U := ascii_tables) (λ e, e) (λ h, h) (render start conts)
      = Some (py "foo").
Proof.
  apply (stored_definitions_are_blocks (U := ascii_tables) (λ e, e) (λ h, h)
           [py "intro"; py "<B>foo</B> x"; py " more "; py "";
            py "<B>Foo, bar</B> y"]
           ({[ py "foo" := mkEntry {[ py "foo"; py "bar" ]}
                                   [py "<B>foo</B> x" ++ py "more" ++ nl;
                                    py "<B>Foo, bar</B> y"] ]}
            : gmap pystr Entry)
           (py "foo")
           (mkEntry {[ py "foo"; py "bar" ]}
                    [py "<B>foo</B> x" ++ py "more" ++ nl; py "<B>Foo, bar</B> y"])).
  - vm_compute. reflexivity.
  - vm_compute. reflexivity.
  - left.
Defined.
